(** * Face-identity alignment loss (ArcFace wrapper) and flow warping

    A shallow embedding of
      - [ldm/modules/arcface_wrapper.py]: [load_image_for_arcface], the
        checkpoint key renaming of [ArcFaceWrapper.__init__],
        [embed_image_tensor] and [calc_arcface_align_loss];
      - [gma/test.py]: [backward_warp_by_flow];
      - [scripts/eval_utils.py]: [split_string], [parse_subject_file],
        [find_first_match] and [parse_range_str].

    Tensors hold real numbers (the idealisation of the floating-point
    values of the program); the face localizer, the face-recognition
    network and the image-processing primitives of the libraries are
    parameters of the development. *)

From Stdlib Require Import Reals Lra Lia.
From stdpp Require Import base option list strings gmap.
From Stdlib Require Import Ascii.

(** ** Python results: a value or a raised exception *)

Inductive exn : Type :=
| TypeError          (* len(None) *)
| ZeroDivisionError  (* a // 0 *)
| KeyError           (* dict.pop of an absent key *)
| ValueError         (* unpacking, numpy broadcasting *)
| IndexError         (* index out of bounds *)
| RuntimeError       (* tensor shape mismatch *)
| OverflowError.     (* a length beyond sys.maxsize *)

Inductive result (A : Type) : Type :=
| Ok (a : A)
| Raise (e : exn).
Arguments Ok {A} a.
Arguments Raise {A} e.

(** ** The checkpoint key renaming of [ArcFaceWrapper.__init__] *)

Module Checkpoint.
Local Open Scope string_scope.

(** [s.startswith(p)] *)
Fixpoint startswith (s p : string) {struct p} : bool :=
  match p with
  | EmptyString => true
  | String a p' =>
      match s with
      | EmptyString => false
      | String b s' => Ascii.eqb a b && startswith s' p'
      end
  end.

(** [str.replace(old, new)] for a non-empty [old]: the occurrences of
    [old] are found from left to right and do not overlap. [skip] counts
    the characters of a found occurrence that are still to be dropped. *)
Fixpoint replace_from (old new : string) (skip : nat) (s : string) : string :=
  match s with
  | EmptyString => EmptyString
  | String c s' =>
      match skip with
      | S k => replace_from old new k s'
      | O =>
          if startswith s old
          then new +:+ replace_from old new (String.length old - 1) s'
          else String c (replace_from old new 0 s')
      end
  end.

Definition replace (old new s : string) : string := replace_from old new 0 s.

(** [old in s] *)
Fixpoint occurs (old s : string) : bool :=
  match s with
  | EmptyString => false
  | String _ s' => startswith s old || occurs old s'
  end.

(** [new_key = key.replace("module.", "")] *)
Definition new_key (key : string) : string := replace "module." "" key.

(** What the specification describes: only a leading ["module."] is
    removed. *)
Definition strip_prefix (key : string) : string :=
  if startswith key "module."
  then String.substring 7 (String.length key - 7) key
  else key.

Section Dict.
Context {V : Type}.

(** A Python [dict] with string keys: the entries in insertion order,
    every key at most once. *)
Definition dict : Type := list (string * V).

Definition keys (d : dict) : list string := d.*1.

(** [d.pop(key)]: the value and the dictionary without the entry. *)
Fixpoint pop (key : string) (d : dict) : option (V * dict) :=
  match d with
  | [] => None
  | (k, v) :: d' =>
      if String.eqb k key then Some (v, d')
      else match pop key d' with
           | Some (w, d'') => Some (w, (k, v) :: d'')
           | None => None
           end
  end.

(** [d[key] = v]: an existing key keeps its place, a new one goes last. *)
Fixpoint setitem (key : string) (v : V) (d : dict) : dict :=
  match d with
  | [] => [(key, v)]
  | (k, w) :: d' =>
      if String.eqb k key then (k, v) :: d'
      else (k, w) :: setitem key v d'
  end.

(** The body of [for key in list(ckpt_state_dict.keys())]. *)
Fixpoint rename_loop (ks : list string) (d : dict) : result dict :=
  match ks with
  | [] => Ok d
  | key :: ks' =>
      match pop key d with
      | None => Raise KeyError
      | Some (v, d') => rename_loop ks' (setitem (new_key key) v d')
      end
  end.

(** The state dictionary handed to [load_state_dict]. *)
Definition rename_keys (d : dict) : result dict := rename_loop (keys d) d.

Definition rename_entry (kv : string * V) : string * V := (new_key kv.1, kv.2).

(** The keys can be renamed one after the other without one entry
    landing on another: no two keys are renamed to the same name and no
    renamed key is another key of the checkpoint. *)
Definition no_clash (ks : list string) : Prop :=
  NoDup (new_key <$> ks) /\
  forall k k', k ∈ ks -> k' ∈ ks -> k <> k' -> new_key k <> k'.

(** The claim of the specification, read on the model: the renamed
    dictionary holds exactly the prefix-stripped keys with their
    tensors. *)
Definition strips_prefix_only (d : dict) : Prop :=
  exists d', rename_keys d = Ok d' /\
    forall k v, (k, v) ∈ d' <-> exists k0, (k0, v) ∈ d /\ k = strip_prefix k0.

End Dict.
Arguments dict V : clear implicits.

(** Two entries of a checkpoint saved from a wrapped model. *)
Definition wrapped_checkpoint : dict nat :=
  [("module.conv1.weight"%string, 1%nat); ("fc.bias"%string, 2%nat)].

End Checkpoint.

(** ** Tensors and the library functions the wrapper calls *)

Module Torch.
Local Open Scope R_scope.

(** A 2-D tensor [[n, d]]: [n] rows of [d] numbers. The rows of the
    tensors compared below come from one network and have one length. *)
Abbreviation vec := (list R) (only parsing).
Abbreviation tensor2 := (list (list R)) (only parsing).

(** One plane [[H, W]] of an image. *)
Abbreviation channel := (list (list R)) (only parsing).

(** An image [[3, H, W]] with its channels in RGB order, and a grayscale
    image [[1, H, W]]. *)
Record rgb_image : Type := RGB { red : channel; green : channel; blue : channel }.
Abbreviation gray_image := (list (list R)) (only parsing).

(** A bounding box: four integer coordinates. *)
Definition bbox : Type := (Z * Z * Z * Z)%type.

Inductive interp_mode : Type := Nearest | Bilinear | Bicubic.

(** The operations of the tensor library that are not spelled out here:
    [F.interpolate(x, size, mode, align_corners)] and [x.to(dtype)]. *)
Class TensorLib : Type := {
  dtype : Type;
  interpolate : list gray_image -> nat * nat -> interp_mode -> bool -> list gray_image;
  to_dtype : list gray_image -> dtype -> list gray_image
}.

Definition sum (l : list R) : R := foldr Rplus 0 l.

(** [x.mean()] of a tensor with at least one element. For a tensor without
    elements torch gives NaN, for which no real number stands: what is said
    below of the value of a mean is said of tensors with elements. *)
Definition mean (l : list R) : R := sum l / INR (length l).

(** [(x * y).sum()] of two rows *)
Definition dot (x y : vec) : R := sum (zip_with Rmult x y).

(** [torch.ones(n)] *)
Definition ones (n : nat) : list R := replicate n 1.

(** [t.repeat(k, 1)] of a 2-D tensor: [k] copies of its rows, one after the
    other. *)
Definition tensor_repeat (t : tensor2) (k : nat) : tensor2 := mjoin (replicate k t).

(** [(t ** 2).mean()] *)
Definition mean_square (t : tensor2) : R := mean ((fun x => x * x) <$> mjoin t).

(** Broadcasting along the first dimension: equal lengths pair up, a
    length of 1 is stretched, anything else is a shape mismatch. *)
Definition broadcast {A B : Type} (a : list A) (b : list B) : result (list (A * B)) :=
  if (length a =? length b)%nat then Ok (zip a b)
  else match a, b with
       | [x], _ => Ok ((fun y => (x, y)) <$> b)
       | _, [y] => Ok ((fun x => (x, y)) <$> a)
       | _, _ => Raise RuntimeError
       end.

(** The stabiliser of [cosine_embedding_loss]. *)
Definition EPSILON : R := 1e-12.

(** The cosine similarity as [cosine_embedding_loss] computes it:
    [prod_sum / sqrt(mag_square1 * mag_square2)]. *)
Definition cosine_similarity (x y : vec) : R :=
  dot x y / sqrt ((dot x x + EPSILON) * (dot y y + EPSILON)).

(** One entry of the unreduced loss: [1 - cos] where the target is [1],
    [max(0, cos - margin)] where it is [-1]. *)
Definition pair_loss (margin : R) (target cos : R) : R :=
  (if Req_dec_T target 1 then 1 - cos else 0) +
  (if Req_dec_T target (-1) then Rmax 0 (cos - margin) else 0).

(** [F.cosine_embedding_loss(input1, input2, target)] with the default
    margin 0 and the default reduction, the mean. *)
Definition cosine_embedding_loss (input1 input2 : tensor2) (target : list R) : result R :=
  match broadcast input1 input2 with
  | Raise e => Raise e
  | Ok pairs =>
      let cos := (fun p => cosine_similarity p.1 p.2) <$> pairs in
      match broadcast target cos with
      | Raise e => Raise e
      | Ok tc => Ok (mean ((fun p => pair_loss 0 p.1 p.2) <$> tc))
      end
  end.

End Torch.

(** ** [ArcFaceWrapper]: [embed_image_tensor] and [calc_arcface_align_loss] *)

Module ArcFaceWrapper.
Import Torch.
Local Open Scope R_scope.

(** What [RetinaFaceClient.crop_faces] returns: the foreground crops
    ([None] when no face was found in any instance), the background crops
    of all instances together ([None] when there are none), the bounding
    boxes of the foreground faces, the indices of the instances without a
    face. *)
Record crop_result : Type := CropResult {
  fg_face_crops : option (list rgb_image);
  bg_face_crops_flat : option (list rgb_image);
  fg_face_bboxes : list bbox;
  failed_inst_indices : list nat
}.

(** The fields of the wrapper that the two methods use: the recognition
    network, its precision and the face localizer,
    [retinaface images out_size T bleed use_whole_image_if_no_face]. *)
Record wrapper `{TensorLib} : Type := Wrapper {
  arcface : list gray_image -> tensor2;
  self_dtype : dtype;
  retinaface : list rgb_image -> nat * nat -> Z -> Z -> bool -> crop_result
}.

(** The two places where the network is evaluated: on the foreground faces
    and on the background faces. *)
Inductive call_site : Type := FgFaces | BgFaces.

Inductive message : Type :=
| FailedRef (indices : list nat)      (* Failed to detect faces in ref_images-... *)
| FailedAligned (indices : list nat)  (* Failed to detect faces in aligned_images-... *)
| LossAlign (loss : R)                (* loss_arcface_align: ... *)
| LossBgSuppress (loss : R)           (* loss_bg_faces_suppress: ... *)
| NoBgFaces.                          (* loss_bg_faces_suppress = 0. No background faces ... *)

(** What a run does besides returning: evaluations of the network (with
    the gradient switch and the input), evaluations of the loss function,
    printed lines. *)
Inductive event : Type :=
| Arcface (site : call_site) (enable_grad : bool) (input : list gray_image)
| CosineEmbeddingLoss (input1 input2 : tensor2) (target : list R)
| Print (msg : message).

(** A computation: the events in order, then a value or an exception. *)
Definition M (A : Type) : Type := (list event * result A)%type.

#[export] Instance M_ret : MRet M := fun A a => ([], Ok a).

#[export] Instance M_bind : MBind M := fun A B f m =>
  match m with
  | (t, Ok a) => let '(t', r) := f a in (t ++ t', r)
  | (t, Raise e) => (t, Raise e)
  end.

Definition emit (e : event) : M unit := ([e], Ok tt).

Definition lift {A : Type} (r : result A) : M A := ([], r).

Definition trace {A : Type} (m : M A) : list event := m.1.
Definition outcome {A : Type} (m : M A) : result A := m.2.

(** [len(t)]: a [TypeError] on [None]. *)
Definition len (t : option tensor2) : M nat :=
  match t with
  | Some rows => mret (length rows)
  | None => lift (Raise TypeError)
  end.

(** [a // b] on lengths. *)
Definition floordiv (a b : nat) : M nat :=
  if (b =? 0)%nat then lift (Raise ZeroDivisionError) else mret (a / b)%nat.

(** A tensor where the program uses one: the same [TypeError] as [len] has
    raised before on [None]. *)
Definition tensor_of (t : option tensor2) : M tensor2 :=
  match t with
  | Some rows => mret rows
  | None => lift (Raise TypeError)
  end.

(** [torch.tensor([0.299, 0.587, 0.114]).view(1, 3, 1, 1)] *)
Definition rgb_to_gray_weights : R * R * R := (0.299, 0.587, 0.114).

Definition channel_scale (c : channel) (w : R) : channel :=
  (fun row : list R => (fun x => x * w) <$> row) <$> c.
Definition channel_add (a b : channel) : channel := zip_with (zip_with Rplus) a b.

(** [(crop * rgb_to_gray_weights).sum(dim=1, keepdim=True)] for one crop. *)
Definition rgb_to_gray (crop : rgb_image) : gray_image :=
  let '(wr, wg, wb) := rgb_to_gray_weights in
  channel_add (channel_add (channel_scale (red crop) wr) (channel_scale (green crop) wg))
              (channel_scale (blue crop) wb).

Section Methods.
Context `{TensorLib} (self : wrapper).

(** [with torch.set_grad_enabled(enable_grad): self.arcface(x)] *)
Definition call_arcface (site : call_site) (enable_grad : bool) (x : list gray_image) : M tensor2 :=
  emit (Arcface site enable_grad x);; mret (arcface self x).

(** Grayscale, resize to 128x128, cast: the input of the network. *)
Definition arcface_input (crops : list rgb_image) : list gray_image :=
  let faces_gray := rgb_to_gray <$> crops in
  let faces_gray := interpolate faces_gray (128, 128)%nat Bilinear false in
  to_dtype faces_gray (self_dtype self).

Definition embed_result : Type :=
  (option tensor2 * option tensor2 * option (list bbox) * list nat)%type.

Definition embed_image_tensor (images_ts : list rgb_image) (T bleed : Z)
    (embed_bg_faces use_whole_image_if_no_face enable_grad : bool) : M embed_result :=
  let r := retinaface self images_ts (128, 128)%nat T bleed use_whole_image_if_no_face in
  match fg_face_crops r with
  | None => mret (None, None, None, failed_inst_indices r)
  | Some fg_crops =>
      fg_faces_emb ← call_arcface FgFaces enable_grad (arcface_input fg_crops);
      bg_faces_emb ←
        match embed_bg_faces, bg_face_crops_flat r with
        | true, Some bg_crops =>
            emb ← call_arcface BgFaces enable_grad (arcface_input bg_crops); mret (Some emb)
        | _, _ => mret None
        end;
      mret (Some fg_faces_emb, bg_faces_emb, Some (fg_face_bboxes r), failed_inst_indices r)
  end.

(** Lines 99 to 127 of [calc_arcface_align_loss]: what follows the two calls
    of [embed_image_tensor], from their two results. *)
Definition losses_of_embeddings (suppress_bg_faces : bool)
    (ref_result aligned_result : embed_result) : M (R * R * option (list bbox)) :=
  let '(ref_fg_faces_emb, _, ref_fg_face_bboxes, ref_failed_inst_indices) := ref_result in
  let '(aligned_fg_faces_emb, aligned_bg_faces_emb, aligned_fg_face_bboxes,
        aligned_failed_inst_indices) := aligned_result in
  let zero_losses : R * R := (0, 0) in
  if (0 <? length ref_failed_inst_indices)%nat then
    emit (Print (FailedRef ref_failed_inst_indices));;
    mret (zero_losses.1, zero_losses.2, None)
  else if (0 <? length aligned_failed_inst_indices)%nat then
    emit (Print (FailedAligned aligned_failed_inst_indices));;
    mret (zero_losses.1, zero_losses.2, None)
  else
    n_ref ← len ref_fg_faces_emb;
    n_aligned ← len aligned_fg_faces_emb;
    ref_emb ← tensor_of ref_fg_faces_emb;
    aligned_emb ← tensor_of aligned_fg_faces_emb;
    ref_emb ←
      (if (n_ref <? n_aligned)%nat
       then k ← floordiv n_aligned n_ref; mret (tensor_repeat ref_emb k)
       else mret ref_emb);
    let target := ones (length ref_emb) in
    emit (CosineEmbeddingLoss ref_emb aligned_emb target);;
    loss_arcface_align ← lift (cosine_embedding_loss ref_emb aligned_emb target);
    emit (Print (LossAlign loss_arcface_align));;
    loss_bg_faces_suppress ←
      match suppress_bg_faces, aligned_bg_faces_emb with
      | true, Some bg_emb =>
          let loss := mean_square bg_emb in
          emit (Print (LossBgSuppress loss));; mret loss
      | true, None => emit (Print NoBgFaces);; mret zero_losses.1
      | false, _ => mret zero_losses.1
      end;
    mret (loss_arcface_align, loss_bg_faces_suppress, aligned_fg_face_bboxes).

Definition calc_arcface_align_loss (ref_images aligned_images : list rgb_image) (T bleed : Z)
    (suppress_bg_faces use_whole_image_if_no_face : bool) : M (R * R * option (list bbox)) :=
  ref_result ← embed_image_tensor ref_images T bleed false false false;
  aligned_result ←
    embed_image_tensor aligned_images T bleed suppress_bg_faces use_whole_image_if_no_face true;
  losses_of_embeddings suppress_bg_faces ref_result aligned_result.

End Methods.

(** The outputs of [embed_image_tensor] that the statements below name: the
    foreground embeddings and the failed-instance list of a run. *)
Definition fg_embeddings (m : M embed_result) : option tensor2 :=
  match outcome m with
  | Ok (fg_emb, _, _, _) => fg_emb
  | Raise _ => None
  end.

Definition reported_failed (m : M embed_result) : list nat :=
  match outcome m with
  | Ok (_, _, _, failed) => failed
  | Raise _ => []
  end.

(** The element of a plane at row [y] and column [x]. *)
Definition pixel (c : channel) (y x : nat) : option R := row ← c !! y; row !! x.

(** Modelled from the spec: the contract of the face localizer
    ([RetinaFaceClient.crop_faces], not part of these sources): one
    foreground crop for every instance that did not fail, and no crops at
    all ([None]) when no instance has a face. *)
Definition localizer_contract `{TensorLib} (self : wrapper) : Prop :=
  forall images out_size T bleed whole,
    let r := retinaface self images out_size T bleed whole in
    match fg_face_crops r with
    | Some crops =>
        crops <> [] /\
        (length crops + length (failed_inst_indices r) = length images)%nat
    | None => length (failed_inst_indices r) = length images
    end.

(** Modelled from the spec: the contract of the identity embedder
    ([resnet_face18], not part of these sources): one embedding for every
    crop, in the same order. *)
Definition embedder_contract `{TensorLib} (self : wrapper) : Prop :=
  forall faces, length (arcface self faces) = length faces.

(** Resizing and casting keep the number of images of a batch. *)
Definition batch_preserving `{TensorLib} : Prop :=
  (forall x size mode ac, length (interpolate x size mode ac) = length x) /\
  (forall x d, length (to_dtype x d) = length x).

(** The claim of the specification on counts that do not divide, read on
    the model: a run on such a pair of batches ends in an exception. *)
Definition raises_on_mismatch `{TensorLib} (self : wrapper)
    (ref_images aligned_images : list rgb_image) (T bleed : Z)
    (suppress_bg_faces use_whole_image_if_no_face : bool) : Prop :=
  forall ref_emb aligned_emb,
    fg_embeddings (embed_image_tensor self ref_images T bleed false false false)
      = Some ref_emb ->
    fg_embeddings (embed_image_tensor self aligned_images T bleed suppress_bg_faces
                     use_whole_image_if_no_face true) = Some aligned_emb ->
    ~ Nat.divide (length ref_emb) (length aligned_emb) ->
    exists e,
      outcome (calc_arcface_align_loss self ref_images aligned_images T bleed
                 suppress_bg_faces use_whole_image_if_no_face) = Raise e.

(** The number of embeddings of an output that may be [None]. *)
Definition batch_size (t : option tensor2) : nat :=
  match t with
  | Some rows => length rows
  | None => 0
  end.

End ArcFaceWrapper.

(** ** [backward_warp_by_flow] of [gma/test.py] *)

Module GmaTest.
Local Open Scope R_scope.

(** A numpy array of three dimensions, [H x W x C], with its elements in
    row-major order: an image ([C = 3]) or a flow field ([C = 2]). *)
Record ndarray : Type := NdArray {
  dimH : nat;
  dimW : nat;
  dimC : nat;
  data : list R
}.

(** The arrays live in a store; a variable holds the address of its array,
    so that two names can stand for one array. *)
Abbreviation loc := nat (only parsing).
Abbreviation heap := (gmap nat ndarray) (only parsing).

(** A computation on the store: a value or an exception, and the store it
    leaves. *)
Definition N (A : Type) : Type := heap -> result A * heap.

#[export] Instance N_ret : MRet N := fun A a h => (Ok a, h).

#[export] Instance N_bind : MBind N := fun A B f m h =>
  match m h with
  | (Ok a, h') => f a h'
  | (Raise e, h') => (Raise e, h')
  end.

Definition raise {A : Type} (e : exn) : N A := fun h => (Raise e, h).

(** Reading the array a name stands for. *)
Definition deref (l : loc) : N ndarray := fun h =>
  match h !! l with
  | Some a => (Ok a, h)
  | None => (Raise ValueError, h)
  end.

(** A new array at an address that is not in use. *)
Definition alloc (a : ndarray) : N loc := fun h =>
  let l := fresh (dom h) in (Ok l, <[l := a]> h).

(** [a.copy()] *)
Definition copy (l : loc) : N loc := a ← deref l; alloc a.

(** The element at flat position [i] of an [H x W x C] array is that of
    row [i / (C * W)], column [(i / C) mod W], channel [i mod C]. *)
Definition row_of (a : ndarray) (i : nat) : nat := (i / (dimC a * dimW a))%nat.
Definition col_of (a : ndarray) (i : nat) : nat := ((i / dimC a) mod dimW a)%nat.
Definition chan_of (a : ndarray) (i : nat) : nat := (i mod dimC a)%nat.

(** [a[:, :, c] += v] for a right-hand side whose shape [fits] the slice
    and whose value at row [y] and column [x], once broadcast, is
    [delta y x]. The channel is looked up first (an [IndexError]), the
    shapes are matched next (a [ValueError]); the update is in place: the
    array at [l] changes. *)
Definition iadd_channel (l : loc) (c : nat) (fits : ndarray -> bool)
    (delta : nat -> nat -> R) : N unit := fun h =>
  match h !! l with
  | None => (Raise ValueError, h)
  | Some a =>
      if (dimC a <=? c)%nat then (Raise IndexError, h)
      else if negb (fits a) then (Raise ValueError, h)
      else
        let upd i v :=
          if (chan_of a i =? c)%nat then v + delta (row_of a i) (col_of a i) else v in
        (Ok tt, <[l := NdArray (dimH a) (dimW a) (dimC a) (imap upd (data a))]> h)
  end.

(** [flow[:, :, 0] += np.arange(W)]: the column index is added along the
    rows; [np.arange(W)] fits a slice of width [W], or any width for
    [W = 1] (where it adds 0). *)
Definition iadd_arange_x (l : loc) (W : nat) : N unit :=
  iadd_channel l 0 (fun a => (W =? dimW a) || (W =? 1))%nat
    (fun _ x => if (W =? 1)%nat then 0 else INR x).

(** [flow[:, :, 1] += np.arange(H)[:, None]]: the row index is added along
    the columns. *)
Definition iadd_arange_y (l : loc) (H : nat) : N unit :=
  iadd_channel l 1 (fun a => (H =? dimH a) || (H =? 1))%nat
    (fun y _ => if (H =? 1)%nat then 0 else INR y).

Section Warp.
(** [cv2.remap(src, map1, None, cv2.INTER_LINEAR)]: a function of its two
    arrays that returns a new array, or fails. *)
Context (remap : ndarray -> ndarray -> result ndarray).

Definition cv2_remap (src map1 : loc) : N loc :=
  s ← deref src;
  m ← deref map1;
  match remap s m with
  | Ok out => alloc out
  | Raise e => raise e
  end.

Definition backward_warp_by_flow (image2 flow1to2 : loc) : N loc :=
  img ← deref image2;
  let '(H, W) := (dimH img, dimW img) in
  flow1to2 ← copy flow1to2;
  iadd_arange_x flow1to2 W;;
  iadd_arange_y flow1to2 H;;
  image1_recovered ← cv2_remap image2 flow1to2;
  mret image1_recovered.

End Warp.

(** A store for runs on small inputs: an image of one row and two columns
    at address 0, a zero flow of the same size at address 1; and a
    stand-in for [cv2.remap] that returns the coordinate map it is given. *)
Definition sample_image : ndarray := NdArray 1 2 3 [0; 0; 0; 0; 0; 0].
Definition sample_flow : ndarray := NdArray 1 2 2 [0; 0; 0; 0].
Definition sample_heap : gmap nat ndarray :=
  <[1%nat := sample_flow]> (<[0%nat := sample_image]> ∅).
Definition remap_shows_map (src map1 : ndarray) : result ndarray := Ok map1.

End GmaTest.

(** ** Reading the trace of a run *)

Module Trace.
Import Torch ArcFaceWrapper.

(** The events of a trace that are evaluations of the network. *)
Definition is_arcface (ev : event) : bool :=
  match ev with
  | Arcface _ _ _ => true
  | _ => false
  end.

Definition network_evaluations (t : list event) : list event := List.filter is_arcface t.

(** The background embeddings of a run of [embed_image_tensor]. *)
Definition bg_embeddings (m : M embed_result) : option tensor2 :=
  match outcome m with
  | Ok (_, bg_emb, _, _) => bg_emb
  | Raise _ => None
  end.

End Trace.

(** ** [load_image_for_arcface] *)

Module LoadImage.
Import Torch.
Local Open Scope R_scope.

(** What [cv2.imread] returns for a file it can read: [H] rows of [W]
    pixels, each with its blue, green and red value, unsigned bytes. *)
Abbreviation bgr_image := (list (list (Z * Z * Z))) (only parsing).

(** [cv2.cvtColor(image, cv2.COLOR_BGR2RGB)] *)
Definition cvtColor_BGR2RGB (image : bgr_image) : list (list (Z * Z * Z)) :=
  (fun row : list (Z * Z * Z) => (fun '(b, g, r) => (r, g, b)) <$> row) <$> image.

(** [image.transpose((2, 0, 1))]: from [H x W x 3] to the three planes. *)
Definition transpose_2_0_1 (image : list (list (Z * Z * Z)))
    : list (list Z) * list (list Z) * list (list Z) :=
  ((fun row : list (Z * Z * Z) => (fun p => p.1.1) <$> row) <$> image,
   (fun row : list (Z * Z * Z) => (fun p => p.1.2) <$> row) <$> image,
   (fun row : list (Z * Z * Z) => (fun p => p.2) <$> row) <$> image).

(** [image.astype(np.float32)], [image -= 127.5], [image /= 127.5] on one
    plane. *)
Definition normalize (plane : list (list Z)) : channel :=
  (fun row : list Z => (fun v => (IZR v - 127.5) / 127.5) <$> row) <$> plane.

(** The image tensor [[1, 3, H, W]], or [None] for a file that
    [cv2.imread] cannot read. *)
Definition load_image_for_arcface (imread : string -> option bgr_image)
    (img_path : string) : option (list rgb_image) :=
  match imread img_path with
  | None => None
  | Some image =>
      let image := cvtColor_BGR2RGB image in
      let '(c0, c1, c2) := transpose_2_0_1 image in
      Some [RGB (normalize c0) (normalize c1) (normalize c2)]
  end.

(** A file system with one readable picture of one row: a red pixel and a
    white pixel. *)
Definition one_picture (img_path : string) : option bgr_image :=
  if String.eqb img_path "face.png" then Some [[(0, 0, 255)%Z; (255, 255, 255)%Z]] else None.

End LoadImage.

(** ** [scripts/eval_utils.py]: strings, ranges, first match *)

Module EvalUtils.

(** A Python [str], character by character (ASCII text). *)
Abbreviation str := (list Ascii.ascii) (only parsing).

#[export] Instance result_ret : MRet result := fun A a => Ok a.

#[export] Instance result_bind : MBind result := fun A B f r =>
  match r with
  | Ok a => f a
  | Raise e => Raise e
  end.

(** The whitespace of [str.strip()] and the [\s] of [re]: the characters
    9 to 13, 28 to 31 and the space. *)
Definition is_space (c : Ascii.ascii) : bool :=
  let n := Ascii.N_of_ascii c in
  ((9 <=? n) && (n <=? 13) || (28 <=? n) && (n <=? 31) || (n =? 32))%N.

Definition is_digit (c : Ascii.ascii) : bool :=
  let n := Ascii.N_of_ascii c in ((48 <=? n) && (n <=? 57))%N.

Definition digit_value (c : Ascii.ascii) : Z := Z.of_N (Ascii.N_of_ascii c) - 48.

(** The double quote. *)
Abbreviation quote := ("034"%char) (only parsing).

(** [c in s] for a character. *)
Definition has_char (c : Ascii.ascii) (s : str) : bool := existsb (Ascii.eqb c) s.

(** [s.split(sep)] for a separator of one character: the pieces between
    the separators, empty pieces included. *)
Fixpoint split_on (sep : Ascii.ascii) (s : str) : list str :=
  match s with
  | [] => [[]]
  | c :: s' =>
      if Ascii.eqb c sep then [] :: split_on sep s'
      else match split_on sep s' with
           | piece :: pieces => (c :: piece) :: pieces
           | [] => [[c]]
           end
  end.

(** [s.lstrip()], [s.rstrip()], [s.strip()] *)
Fixpoint lstrip (s : str) : str :=
  match s with
  | c :: s' => if is_space c then lstrip s' else s
  | [] => []
  end.

Fixpoint rstrip (s : str) : str :=
  match s with
  | [] => []
  | c :: s' =>
      match rstrip s' with
      | [] => if is_space c then [] else [c]
      | r => c :: r
      end
  end.

Definition strip (s : str) : str := rstrip (lstrip s).

(** The digits of [int()]: at least one, single underscores between digits
    allowed. [after_digit] tells whether the character before was a
    digit. *)
Fixpoint digits (acc : Z) (after_digit : bool) (s : str) : option Z :=
  match s with
  | [] => if after_digit then Some acc else None
  | c :: s' =>
      if is_digit c then digits (10 * acc + digit_value c) true s'
      else if Ascii.eqb c "_"%char && after_digit then
        match s' with
        | [] => None
        | _ => digits acc false s'
        end
      else None
  end.

(** The whitespace that [int()] skips at both ends of an ASCII string: the
    characters 9 to 13 and the space (the characters 28 to 31, which
    [str.strip()] removes, are an error for [int()]). *)
Definition is_int_space (c : Ascii.ascii) : bool :=
  let n := Ascii.N_of_ascii c in
  ((9 <=? n) && (n <=? 13) || (n =? 32))%N.

Fixpoint int_lstrip (s : str) : str :=
  match s with
  | c :: s' => if is_int_space c then int_lstrip s' else s
  | [] => []
  end.

Fixpoint int_rstrip (s : str) : str :=
  match s with
  | [] => []
  | c :: s' =>
      match int_rstrip s' with
      | [] => if is_int_space c then [] else [c]
      | r => c :: r
      end
  end.

(** [int(s)]: surrounding whitespace, a sign, decimal digits; a
    [ValueError] otherwise. (The limit that recent interpreters put on the
    number of digits, 4300 unless configured, is not part of the model.) *)
Definition int (s : str) : result Z :=
  let parsed :=
    match int_rstrip (int_lstrip s) with
    | "+"%char :: r => digits 0 false r
    | "-"%char :: r => Z.opp <$> digits 0 false r
    | r => digits 0 false r
    end in
  match parsed with
  | Some z => Ok z
  | None => Raise ValueError
  end.

(** The numbers of [range(a, b)]. *)
Definition range (a b : Z) : list Z := seqZ a (b - a).

(** [sys.maxsize] of a 64-bit interpreter. *)
Definition maxsize : Z := 2 ^ 63 - 1.

(** [list(range(a, b))]: the list asks the range for its length, which is
    an [OverflowError] beyond [sys.maxsize]. Memory is taken to suffice for
    every list: no [MemoryError] is modelled. *)
Definition list_range (a b : Z) : result (list Z) :=
  if (maxsize <? b - a)%Z then Raise OverflowError else Ok (range a b).

(** The loop of [parse_range_str] over the parts, [res] the list built so
    far. *)
Fixpoint parse_parts (offset : Z) (parts : list str) (res : list Z) : result (list Z) :=
  match parts with
  | [] => Ok res
  | part :: parts' =>
      if has_char "-"%char part then
        match split_on "-"%char part with
        | [a; b] =>
            a ← int a;
            b ← int b;
            let '(a, b) := (a - offset, b - offset)%Z in
            numbers ← list_range a (b + 1);
            parse_parts offset parts' (res ++ numbers)
        | _ => Raise ValueError
        end
      else
        a ← int part;
        parse_parts offset parts' (res ++ [(a - offset)%Z])
  end.

(** One part of the string: what it adds to the list. *)
Definition part_values (offset : Z) (part : str) : result (list Z) :=
  parse_parts offset [part] [].

Definition parse_range_str (range_str : str) (fix_1_offset : bool) : result (list Z) :=
  let offset := if fix_1_offset then 1%Z else 0%Z in
  parse_parts offset (split_on ","%char range_str) [].

(** [needle in hay] for strings. *)
Fixpoint starts_with (hay needle : str) {struct needle} : bool :=
  match needle with
  | [] => true
  | a :: needle' =>
      match hay with
      | [] => false
      | b :: hay' => Ascii.eqb a b && starts_with hay' needle'
      end
  end.

Fixpoint contains (needle hay : str) : bool :=
  starts_with hay needle ||
  match hay with
  | [] => false
  | _ :: hay' => contains needle hay'
  end.

(** [find_first_match]; [re_search pattern item] tells whether
    [re.search(pattern, item)] finds a match. *)
Fixpoint find_first_match (re_search : str -> str -> bool)
    (lst : list str) (search_term extra_sig : str) : option str :=
  match lst with
  | [] => None
  | item :: lst' =>
      if contains search_term item && re_search extra_sig item then Some item
      else find_first_match re_search lst' search_term extra_sig
  end.

(** The matches that [re.findall] returns for the pattern of
    [split_string], from left to right. The pattern has two alternatives:
    a double quote, characters other than the double quote, a double
    quote; or a run of characters that are not whitespace. At a quote that
    has a later quote the first alternative takes everything up to the
    next quote; otherwise the second alternative takes the characters up
    to the next whitespace, quotes among them. *)
Inductive scan_mode : Type :=
| Between
| InWord (token : str)
| InQuotes (token : str).

Fixpoint findall_tokens (m : scan_mode) (s : str) : list str :=
  match s with
  | [] =>
      match m with
      | InWord token => [token]
      | _ => []
      end
  | c :: s' =>
      match m with
      | Between =>
          if Ascii.eqb c "034"%char then
            if has_char "034"%char s' then findall_tokens (InQuotes [c]) s'
            else findall_tokens (InWord [c]) s'
          else if is_space c then findall_tokens Between s'
          else findall_tokens (InWord [c]) s'
      | InWord token =>
          if is_space c then token :: findall_tokens Between s'
          else findall_tokens (InWord (token ++ [c])) s'
      | InQuotes token =>
          if Ascii.eqb c "034"%char then (token ++ [c]) :: findall_tokens Between s'
          else findall_tokens (InQuotes (token ++ [c])) s'
      end
  end.

(** [s.strip(q)] for the double quote [q] *)
Fixpoint lstrip_quotes (s : str) : str :=
  match s with
  | c :: s' => if Ascii.eqb c "034"%char then lstrip_quotes s' else s
  | [] => []
  end.

Fixpoint rstrip_quotes (s : str) : str :=
  match s with
  | [] => []
  | c :: s' =>
      match rstrip_quotes s' with
      | [] => if Ascii.eqb c "034"%char then [] else [c]
      | r => c :: r
      end
  end.

Definition strip_quotes (s : str) : str := rstrip_quotes (lstrip_quotes s).

Definition split_string (input_string : str) : list str :=
  strip_quotes <$> findall_tokens Between input_string.

(** The items of a line as one writes them: a bare word, or a phrase
    between double quotes. *)
Inductive item : Type :=
| Bare (word : str)
| Phrase (words : str).

Definition written (i : item) : str :=
  match i with
  | Bare word => word
  | Phrase words => "034"%char :: words ++ ["034"%char]
  end.

Definition meant (i : item) : str :=
  match i with
  | Bare word => word
  | Phrase words => words
  end.

Definition well_written (i : item) : Prop :=
  match i with
  | Bare word =>
      word <> [] /\ Forall (fun c => is_space c = false /\ c <> "034"%char) word
  | Phrase words => Forall (fun c => c <> "034"%char) words
  end.

(** [' '.join(pieces)] *)
Fixpoint join_spaces (pieces : list str) : str :=
  match pieces with
  | [] => []
  | [piece] => piece
  | piece :: pieces' => piece ++ " "%char :: join_spaces pieces'
  end.

(** *** [parse_subject_file] *)

(** A run of [parse_subject_file] returns, raises, or stops at the
    [breakpoint()] of line 77. *)
Inductive subject_run (A : Type) : Type :=
| Returns (a : A)
| Raises (e : exn)
| AtBreakpoint.
Arguments Returns {A} a.
Arguments Raises {A} e.
Arguments AtBreakpoint {A}.

(** The four variables of the function. *)
Record subject_vars : Type := SubjectVars {
  subjects : option (list str);
  class_tokens : option (list str);
  broad_classes : option (list Z);
  sel_set : option (list Z)
}.

(** The characters of the class of letters and the underscore. *)
Definition is_name_char (c : Ascii.ascii) : bool :=
  let n := Ascii.N_of_ascii c in
  ((65 <=? n) && (n <=? 90) || (97 <=? n) && (n <=? 122) || (n =? 95))%N.

(** The longest prefix of characters that pass [p], and the rest. *)
Fixpoint span (p : Ascii.ascii -> bool) (s : str) : str * str :=
  match s with
  | c :: s' => if p c then let '(taken, rest) := span p s' in (c :: taken, rest) else ([], s)
  | [] => ([], [])
  end.

(** The pattern of line 60 at the start of the line: [set -l ] or
    [set -a ], a name of letters and underscores, a space. The result is
    the name and what follows it. *)
Definition match_set (line : str) : option (str * str) :=
  match line with
  | "s"%char :: "e"%char :: "t"%char :: " "%char :: "-"%char :: flag :: " "%char :: r =>
      if Ascii.eqb flag "l"%char || Ascii.eqb flag "a"%char then
        match span is_name_char r with
        | (c :: name, " "%char :: after) => Some (c :: name, " "%char :: after)
        | _ => None
        end
      else None
  | _ => None
  end.

(** The second group of the pattern of line 62 in what follows the name:
    after the whitespace, a character that is not whitespace, one
    character or more other than the line feed, as many as possible, and a
    character that is not whitespace. *)
Definition match_value (after : str) : option str :=
  match lstrip after with
  | [] => None
  | c :: r =>
      let value := rstrip (c :: (span (fun c => negb (Ascii.eqb c "010"%char)) r).1) in
      if (3 <=? length value)%nat then Some value else None
  end.

Definition ints (substrings : list str) (shift : Z) : result (list Z) :=
  foldr (fun s acc =>
           match int s, acc with
           | Ok z, Ok l => Ok ((z - shift)%Z :: l)
           | Raise e, _ => Raise e
           | _, Raise e => Raise e
           end) (Ok []) substrings.

(** Lines 60 to 77 for one line, already stripped. *)
Definition subject_line (method : str) (vars : subject_vars) (line : str)
    : subject_run subject_vars :=
  match match_set line with
  | None => Returns vars
  | Some (var_name, after) =>
      match match_value after with
      | None => AtBreakpoint
      | Some value =>
          let substrings := split_string value in
          let named (name : string) := bool_decide (var_name = String.list_ascii_of_string name) in
          let db := bool_decide (method = String.list_ascii_of_string "db") in
          if named "subjects" then
            Returns (SubjectVars (Some substrings) (class_tokens vars)
                       (broad_classes vars) (sel_set vars))
          else if named "db_prompts" && db then
            Returns (SubjectVars (subjects vars) (Some substrings)
                       (broad_classes vars) (sel_set vars))
          else if named "cls_tokens" && negb db then
            Returns (SubjectVars (subjects vars) (Some substrings)
                       (broad_classes vars) (sel_set vars))
          else if named "broad_classes" then
            match ints substrings 0 with
            | Ok l => Returns (SubjectVars (subjects vars) (class_tokens vars)
                                 (Some l) (sel_set vars))
            | Raise e => Raises e
            end
          else if named "sel_set" then
            match ints substrings 1 with
            | Ok l => Returns (SubjectVars (subjects vars) (class_tokens vars)
                                 (broad_classes vars) (Some l))
            | Raise e => Raises e
            end
          else Returns vars
      end
  end.

(** The loop of line 59 over the stripped lines. *)
Fixpoint subject_lines (method : str) (vars : subject_vars) (lines : list str)
    : subject_run subject_vars :=
  match lines with
  | [] => Returns vars
  | line :: lines' =>
      match subject_line method vars line with
      | Returns vars' => subject_lines method vars' lines'
      | Raises e => Raises e
      | AtBreakpoint => AtBreakpoint
      end
  end.

(** Lines 79 to 89. *)
Definition subject_result (vars : subject_vars)
    : subject_run (list str * list str * list Z * list Z) :=
  match
    match broad_classes vars with
    | Some l => Ok l
    | None =>
        match subjects vars with
        | Some subj => Ok ((fun _ => 1%Z) <$> subj)
        | None => Raise TypeError
        end
    end
  with
  | Raise e => Raises e
  | Ok broad =>
      match
        match sel_set vars with
        | Some l => Ok l
        | None =>
            match subjects vars with
            | Some subj => Ok (range 0 (Z.of_nat (length subj)))
            | None => Raise TypeError
            end
        end
      with
      | Raise e => Raises e
      | Ok sel =>
          match subjects vars, class_tokens vars with
          | Some subj, Some tokens => Returns (subj, tokens, broad, sel)
          | _, _ => Raises ValueError
          end
      end
  end.

(** [parse_subject_file] on the lines that [f.readlines()] gives. *)
Definition parse_subject_file (lines : list str) (method : str)
    : subject_run (list str * list str * list Z * list Z) :=
  let lines := strip <$> lines in
  match subject_lines method (SubjectVars None None None None) lines with
  | Returns vars => subject_result vars
  | Raises e => Raises e
  | AtBreakpoint => AtBreakpoint
  end.

(** A line (stripped) that the pattern of line 60 matches, and one that
    names a given variable. *)
Definition is_set_line (line : str) : bool :=
  match match_set line with
  | Some _ => true
  | None => false
  end.

Definition names (name : string) (line : str) : bool :=
  match match_set line with
  | Some (var_name, _) => bool_decide (var_name = String.list_ascii_of_string name)
  | None => false
  end.

End EvalUtils.

(** ** Stand-ins for the collaborators, for runs on small inputs *)

Module StandIn.
Import Torch ArcFaceWrapper.
Local Open Scope R_scope.

(** A tensor library whose resizing and casting return their input (the
    crops of the stand-in localizer have their final size already). *)
#[export] Instance plain_lib : TensorLib := {|
  dtype := unit;
  interpolate := fun x _ _ _ => x;
  to_dtype := fun x _ => x
|}.

(** The stand-in localizer finds a foreground face in an image whose red
    plane is not empty, whatever [T] and [bleed]; it crops the whole image.
    An image of more than one row also gives a background face. *)
Definition has_face (im : rgb_image) : bool :=
  match red im with [] => false | _ => true end.

Definition has_bg_face (im : rgb_image) : bool :=
  match red im with _ :: _ :: _ => true | _ => false end.

Fixpoint failed_from (i : nat) (images : list rgb_image) : list nat :=
  match images with
  | [] => []
  | im :: rest => if has_face im then failed_from (S i) rest else i :: failed_from (S i) rest
  end.

Definition some_if_any {A : Type} (l : list A) : option (list A) :=
  match l with [] => None | _ => Some l end.

Definition locate (images : list rgb_image) (out_size : nat * nat) (T bleed : Z)
    (use_whole_image_if_no_face : bool) : crop_result :=
  let faces := List.filter has_face images in
  {| fg_face_crops := some_if_any faces;
     bg_face_crops_flat := some_if_any (List.filter has_bg_face faces);
     fg_face_bboxes := (fun _ => (0, 0, 128, 128)%Z) <$> faces;
     failed_inst_indices := failed_from 0 images |}.

(** The stand-in network: the pixels of a face, row after row. *)
Definition pixels_of (faces : list gray_image) : tensor2 := (fun f : gray_image => mjoin f) <$> faces.

Definition stand_in : wrapper :=
  {| arcface := pixels_of; self_dtype := tt; retinaface := locate |}.

(** The embeddings of the faces of a batch. *)
Definition emb_of (images : list rgb_image) : tensor2 :=
  arcface stand_in (arcface_input stand_in images).

(** Small images: two faces of one pixel, a face with a background face,
    an image without a face. *)
Definition face_a : rgb_image := RGB [[1]] [[0]] [[0]].
Definition face_b : rgb_image := RGB [[0]] [[1]] [[0]].
Definition face_with_bg : rgb_image := RGB [[1]; [1]] [[1]; [1]] [[1]; [1]].
Definition no_face : rgb_image := RGB [] [] [].

End StandIn.

(** * Properties *)

(** ** The checkpoint key renaming *)

Module CheckpointProofs.
Import Checkpoint.

Lemma replace_from_skip (old new a rest : string) :
  replace_from old new (String.length a) (a +:+ rest)%string = replace_from old new 0 rest.
Proof.
  induction a as [|c a IH]; simpl.
  - reflexivity.
  - exact IH.
Qed.

Lemma prefix_occurs_false (old s : string) :
  occurs old s = false -> replace_from old ""%string 0 s = s.
Proof.
  induction s as [|c s IH]; simpl; [reflexivity|].
  intros Hocc. apply orb_false_iff in Hocc as [Hp Ho].
  simpl in Hp. rewrite Hp. f_equal. exact (IH Ho).
Qed.

Section DictFacts.
Context {V : Type}.
Implicit Types (d acc : dict V) (k key : string) (v : V).

Lemma pop_head k v d : pop k ((k, v) :: d) = Some (v, d).
Proof. simpl. rewrite String.eqb_refl. reflexivity. Qed.

Lemma setitem_fresh key v d :
  key ∉ keys d -> setitem key v d = d ++ [(key, v)].
Proof.
  induction d as [|[k w] d IH]; simpl; intros Hnot; [reflexivity|].
  apply not_elem_of_cons in Hnot as [Hne Hnot].
  destruct (String.eqb_spec k key) as [->|_]; [congruence|].
  f_equal. exact (IH Hnot).
Qed.

Lemma keys_app d acc : keys (d ++ acc) = keys d ++ keys acc.
Proof. unfold keys. apply fmap_app. Qed.

(** The loop invariant: the entries still to be renamed come first, in
    their order, the renamed ones follow. *)
Lemma rename_loop_acc d : forall acc,
  NoDup (new_key <$> keys d) ->
  (forall k k', k ∈ keys d -> k' ∈ keys d -> k <> k' -> new_key k <> k') ->
  (forall k, k ∈ keys d -> new_key k ∉ keys acc) ->
  rename_loop (keys d) (d ++ acc) = Ok (acc ++ (rename_entry <$> d)).
Proof.
  induction d as [|[k v] d IH]; intros acc Hnd Hother Hacc.
  - simpl. rewrite app_nil_r. reflexivity.
  - pose proof (NoDup_fmap_1 _ _ Hnd) as Hndk.
    change (keys ((k, v) :: d)) with (k :: keys d) in *.
    rewrite fmap_cons in Hnd.
    apply NoDup_cons in Hnd as [Hk_new Hnd].
    apply NoDup_cons in Hndk as [Hk Hndk].
    cbn [rename_loop]. rewrite <- app_comm_cons, pop_head.
    rewrite setitem_fresh.
    + rewrite <- app_assoc. rewrite IH.
      * rewrite <- app_assoc. reflexivity.
      * exact Hnd.
      * intros k1 k2 H1 H2. apply Hother; apply elem_of_cons; auto.
      * intros k1 H1. rewrite keys_app. apply not_elem_of_app. split.
        -- apply Hacc. apply elem_of_cons; auto.
        -- simpl. intros Hin. apply list_elem_of_singleton in Hin.
           apply Hk_new. rewrite <- Hin. apply list_elem_of_fmap. eauto.
    + rewrite keys_app. apply not_elem_of_app. split.
      * intros Hin. destruct (decide (new_key k = k)) as [Heq|Hne].
        -- rewrite Heq in Hin. exact (Hk Hin).
        -- refine (Hother k (new_key k) _ _ _ eq_refl).
           ++ apply elem_of_cons; auto.
           ++ apply elem_of_cons; auto.
           ++ congruence.
      * apply Hacc. apply elem_of_cons; auto.
Qed.

End DictFacts.

(** C9 (as amended): [new_key] deletes the occurrences of ["module."]
    wherever they are in the key, a leading one included, and leaves a key
    without ["module."] as it is; when the renaming makes no two entries
    meet, the dictionary after the loop holds the renamed keys with their
    tensors, in the order of the checkpoint. *)
Theorem rename_keys_renames_every_entry {V : Type} (d : dict V) :
  no_clash (keys d) ->
  rename_keys d = Ok (rename_entry <$> d) /\
  (forall rest, new_key ("module." +:+ rest)%string = new_key rest) /\
  (forall k v, (k, v) ∈ d -> occurs "module."%string k = false -> rename_entry (k, v) = (k, v)).
Proof.
  intros [Hnd Hother]. split; [|split].
  - unfold rename_keys.
    rewrite <- (app_nil_r d) at 2.
    rewrite (rename_loop_acc d [] Hnd Hother).
    + reflexivity.
    + intros k _ Hin. inversion Hin.
  - intros rest. reflexivity.
  - intros k v _ Hocc. unfold rename_entry, new_key, replace. simpl.
    rewrite (prefix_occurs_false _ _ Hocc). reflexivity.
Qed.

Lemma wrapped_checkpoint_no_clash : no_clash (keys wrapped_checkpoint).
Proof.
  split.
  - apply (bool_decide_unpack _). vm_compute. exact I.
  - intros k k' Hk Hk' Hne Heq.
    change (keys wrapped_checkpoint)
      with ["module.conv1.weight"%string; "fc.bias"%string] in Hk, Hk'.
    rewrite !elem_of_cons, elem_of_nil in Hk, Hk'.
    destruct Hk as [->|[->|[]]]; destruct Hk' as [->|[->|[]]];
      vm_compute in Heq; congruence.
Defined.

Lemma rename_keys_renames_every_entry_witness :
  no_clash (keys wrapped_checkpoint) /\
  rename_keys wrapped_checkpoint =
    Ok [("conv1.weight"%string, 1%nat); ("fc.bias"%string, 2%nat)].
Proof.
  split.
  - exact wrapped_checkpoint_no_clash.
  - exact (proj1 (rename_keys_renames_every_entry wrapped_checkpoint
                    wrapped_checkpoint_no_clash)).
Defined.

(** C9 (as stated) fails: a key that does not start with ["module."] but
    contains it is renamed too, ["submodule.weight"] becomes
    ["subweight"]. *)
Lemma rename_keys_changes_key_without_prefix :
  ~ strips_prefix_only [("submodule.weight"%string, 7%nat)].
Proof.
  intros (d' & Hd & Hiff).
  vm_compute in Hd. injection Hd as <-.
  destruct (Hiff "subweight"%string 7%nat) as [Hto _].
  destruct Hto as (k0 & Hin & Hk); [apply list_elem_of_singleton; reflexivity|].
  apply list_elem_of_singleton in Hin. injection Hin as ->.
  vm_compute in Hk. discriminate Hk.
Qed.

(** Occurrences are deleted from left to right, each found after the one
    before it. *)
Example new_key_repeated_prefix : new_key "module.module.fc.bias" = "fc.bias"%string.
Proof. reflexivity. Qed.

Example new_key_inner_occurrence : new_key "encoder.module.fc.bias" = "encoder.fc.bias"%string.
Proof. reflexivity. Qed.

(** When a renamed key meets another key, one tensor replaces the other. *)
Example rename_keys_clash :
  rename_keys [("module.w"%string, 1%nat); ("w"%string, 2%nat)] = Ok [("w"%string, 1%nat)].
Proof. reflexivity. Qed.

End CheckpointProofs.

(** ** The tensor operations *)

Module TorchProofs.
Import Torch.
Local Open Scope R_scope.

Lemma tensor_repeat_length (t : tensor2) (k : nat) :
  length (tensor_repeat t k) = (k * length t)%nat.
Proof.
  unfold tensor_repeat. induction k as [|k IH]; simpl; [reflexivity|].
  rewrite length_app, IH. reflexivity.
Qed.

Lemma tensor_repeat_lookup (t : tensor2) (k j : nat) :
  (j < k * length t)%nat -> tensor_repeat t k !! j = t !! (j mod length t)%nat.
Proof.
  unfold tensor_repeat. revert j. induction k as [|k IH]; intros j Hj; simpl in *; [lia|].
  destruct (decide (j < length t)%nat) as [Hlt|Hge].
  - rewrite lookup_app_l by exact Hlt. rewrite Nat.mod_small by exact Hlt. reflexivity.
  - rewrite lookup_app_r by lia. rewrite IH by lia.
    f_equal.
    replace j with ((j - length t) + 1 * length t)%nat at 2 by lia.
    rewrite Nat.Div0.mod_add. reflexivity.
Qed.

Lemma tensor_repeat_single (e : vec) (k : nat) :
  tensor_repeat [e] k = replicate k e.
Proof.
  unfold tensor_repeat. induction k as [|k IH]; simpl; [reflexivity|].
  f_equal. exact IH.
Qed.

Lemma zip_replicate_l {A B : Type} (x : A) (l : list B) :
  zip (replicate (length l) x) l = (fun y => (x, y)) <$> l.
Proof. induction l as [|y l IH]; simpl; [reflexivity|]. f_equal. exact IH. Qed.

(** The length of a broadcast pairing. *)
Lemma broadcast_length {A B : Type} (a : list A) (b : list B) ps :
  broadcast a b = Ok ps ->
  length ps = length a \/ (length a = 1%nat /\ length ps = length b).
Proof.
  unfold broadcast. destruct (Nat.eqb_spec (length a) (length b)) as [Heq|Hne].
  - intros [= <-]. left. rewrite length_zip_with. lia.
  - destruct a as [|x [|x' a]].
    + destruct b as [|y [|y' b]]; try discriminate.
      intros [= <-]. left. reflexivity.
    + intros [= <-]. right. rewrite length_fmap. auto.
    + destruct b as [|y [|y' b]]; try discriminate.
      intros [= <-]. left. simpl. rewrite length_fmap. reflexivity.
Qed.

(** A target of ones pairs every similarity with the label 1. *)
Lemma broadcast_ones (n : nat) (c : list R) :
  length c = n \/ n = 1%nat ->
  broadcast (ones n) c = Ok ((fun x => (1, x)) <$> c).
Proof.
  unfold broadcast, ones. rewrite length_replicate.
  intros Hn. destruct (Nat.eqb_spec n (length c)) as [->|Hne].
  - rewrite zip_replicate_l. reflexivity.
  - destruct Hn as [Hn | ->]; [congruence|]. reflexivity.
Qed.

Lemma pair_loss_match (c : R) : pair_loss 0 1 c = 1 - c.
Proof.
  unfold pair_loss.
  destruct (Req_dec_T 1 1) as [_|Hne]; [|congruence].
  destruct (Req_dec_T 1 (-1)) as [Heq|_]; lra.
Qed.

(** With a target of ones the loss is the mean of [1 - cos] over the pairs
    of rows. *)
Lemma cosine_embedding_loss_ones (x1 x2 : tensor2) :
  cosine_embedding_loss x1 x2 (ones (length x1)) =
  match broadcast x1 x2 with
  | Ok pairs => Ok (mean ((fun p => 1 - cosine_similarity p.1 p.2) <$> pairs))
  | Raise e => Raise e
  end.
Proof.
  unfold cosine_embedding_loss.
  destruct (broadcast x1 x2) as [pairs|e] eqn:Hb; [|reflexivity].
  rewrite broadcast_ones.
  - f_equal. f_equal. rewrite <- !list_fmap_compose.
    apply list_fmap_ext. intros i p _. simpl. apply pair_loss_match.
  - rewrite length_fmap. apply broadcast_length in Hb. destruct Hb as [Hb|[Hb _]]; auto.
Qed.

Lemma broadcast_same_length {A B : Type} (a : list A) (b : list B) :
  length a = length b -> broadcast a b = Ok (zip a b).
Proof. intros Heq. unfold broadcast. rewrite Heq, Nat.eqb_refl. reflexivity. Qed.

(** Rows that cannot be paired: different counts, neither of them 1. *)
Lemma broadcast_mismatch {A B : Type} (a : list A) (b : list B) :
  length a <> length b -> length a <> 1%nat -> length b <> 1%nat ->
  broadcast a b = Raise RuntimeError.
Proof.
  intros Hne Ha Hb. unfold broadcast.
  destruct (Nat.eqb_spec (length a) (length b)) as [Heq|_]; [congruence|].
  destruct a as [|x [|x' a]]; destruct b as [|y [|y' b]]; simpl in *; congruence.
Qed.

End TorchProofs.

(** ** [embed_image_tensor] and [calc_arcface_align_loss] *)

Module ArcFaceProofs.
Import Torch ArcFaceWrapper TorchProofs.
Local Open Scope R_scope.

Section Runs.
Context `{TensorLib} (self : wrapper).

(** The run of [embed_image_tensor], by what the localizer returns. *)
Lemma embed_run images T bleed bg whole grad :
  embed_image_tensor self images T bleed bg whole grad =
  let r := retinaface self images (128, 128)%nat T bleed whole in
  match fg_face_crops r with
  | None => ([], Ok (None, None, None, failed_inst_indices r))
  | Some fg =>
      match bg, bg_face_crops_flat r with
      | true, Some bgc =>
          ([Arcface FgFaces grad (arcface_input self fg);
            Arcface BgFaces grad (arcface_input self bgc)],
           Ok (Some (arcface self (arcface_input self fg)),
               Some (arcface self (arcface_input self bgc)),
               Some (fg_face_bboxes r), failed_inst_indices r))
      | _, _ =>
          ([Arcface FgFaces grad (arcface_input self fg)],
           Ok (Some (arcface self (arcface_input self fg)), None,
               Some (fg_face_bboxes r), failed_inst_indices r))
      end
  end.
Proof.
  unfold embed_image_tensor. simpl.
  destruct (fg_face_crops _); [|reflexivity].
  destruct bg; [|reflexivity].
  destruct (bg_face_crops_flat _); reflexivity.
Qed.

Lemma embed_reported_failed images T bleed bg whole grad :
  reported_failed (embed_image_tensor self images T bleed bg whole grad) =
  failed_inst_indices (retinaface self images (128, 128)%nat T bleed whole).
Proof.
  rewrite embed_run. simpl. unfold reported_failed.
  destruct (fg_face_crops _); [|reflexivity].
  destruct bg; [|reflexivity].
  destruct (bg_face_crops_flat _); reflexivity.
Qed.

Lemma embed_fg_embeddings images T bleed bg whole grad :
  fg_embeddings (embed_image_tensor self images T bleed bg whole grad) =
  (fun crops => arcface self (arcface_input self crops)) <$>
    fg_face_crops (retinaface self images (128, 128)%nat T bleed whole).
Proof.
  rewrite embed_run. simpl. unfold fg_embeddings.
  destruct (fg_face_crops _); [|reflexivity].
  destruct bg; [|reflexivity].
  destruct (bg_face_crops_flat _); reflexivity.
Qed.

(** C5: when the localizer returns no foreground crops, [embed_image_tensor]
    returns [None] for the foreground embeddings, the background
    embeddings and the bounding boxes, and the failed-instance list of the
    localizer as it is; the network is not evaluated. *)
Theorem embed_image_tensor_no_faces images T bleed bg whole grad :
  fg_face_crops (retinaface self images (128, 128)%nat T bleed whole) = None ->
  embed_image_tensor self images T bleed bg whole grad =
    ([], Ok (None, None, None,
             failed_inst_indices (retinaface self images (128, 128)%nat T bleed whole))).
Proof.
  intros Hnone. rewrite embed_run. simpl. rewrite Hnone. reflexivity.
Qed.

Lemma arcface_input_length crops :
  batch_preserving -> length (arcface_input self crops) = length crops.
Proof.
  intros [Hi Ht]. unfold arcface_input. rewrite Ht, Hi, length_fmap. reflexivity.
Qed.

(** C4: under the contracts of the localizer and of the embedder, the
    number of foreground embeddings that [embed_image_tensor] returns is
    the batch size minus the number of failed instances, the [None] of a
    batch without any face counting as no embedding; with no failed
    instance and a batch that is not empty, a batch of embeddings as long
    as the input is returned. *)
Theorem embed_image_tensor_batch_size images T bleed bg whole grad :
  localizer_contract self -> embedder_contract self -> batch_preserving ->
  let run := embed_image_tensor self images T bleed bg whole grad in
  batch_size (fg_embeddings run) = (length images - length (reported_failed run))%nat /\
  (forall rows, fg_embeddings run = Some rows ->
     (length rows + length (reported_failed run))%nat = length images) /\
  (fg_embeddings run = None -> length (reported_failed run) = length images) /\
  (reported_failed run = [] -> images <> [] ->
     exists rows, fg_embeddings run = Some rows /\ length rows = length images).
Proof.
  intros Hloc Hemb Hlib run. subst run.
  rewrite embed_fg_embeddings, embed_reported_failed.
  specialize (Hloc images (128, 128)%nat T bleed whole). simpl in Hloc.
  destruct (fg_face_crops _) as [crops|]; simpl.
  - destruct Hloc as [_ Hlen].
    rewrite Hemb, arcface_input_length by exact Hlib.
    repeat split.
    + lia.
    + intros rows [= <-]. rewrite Hemb, arcface_input_length by exact Hlib. exact Hlen.
    + discriminate.
    + intros Hnil _. eexists. split; [reflexivity|].
      rewrite Hemb, arcface_input_length by exact Hlib.
      rewrite Hnil in Hlen. simpl in Hlen. lia.
  - repeat split.
    + lia.
    + discriminate.
    + intros _. exact Hloc.
    + intros Hnil Hne. rewrite Hnil in Hloc. simpl in Hloc.
      destruct images; [congruence|discriminate Hloc].
Qed.

Lemma pixel_scale (c : channel) w y x :
  pixel (channel_scale c w) y x = (fun v => v * w) <$> pixel c y x.
Proof.
  unfold pixel, channel_scale. rewrite list_lookup_fmap.
  destruct (c !! y) as [row|]; simpl; [apply list_lookup_fmap|reflexivity].
Qed.

Lemma pixel_add (a b : channel) y x va vb :
  pixel a y x = Some va -> pixel b y x = Some vb ->
  pixel (channel_add a b) y x = Some (va + vb).
Proof.
  unfold pixel, channel_add. intros Ha Hb. rewrite lookup_zip_with.
  destruct (a !! y) as [ra|]; simpl in *; [|discriminate].
  destruct (b !! y) as [rb|]; simpl in *; [|discriminate].
  rewrite lookup_zip_with, Ha. simpl. rewrite Hb. reflexivity.
Qed.

Lemma rgb_to_gray_pixel crop y x r g b :
  pixel (red crop) y x = Some r -> pixel (green crop) y x = Some g ->
  pixel (blue crop) y x = Some b ->
  pixel (rgb_to_gray crop) y x = Some (r * 0.299 + g * 0.587 + b * 0.114).
Proof.
  intros Hr Hg Hb. unfold rgb_to_gray, rgb_to_gray_weights.
  apply pixel_add; [apply pixel_add|]; rewrite pixel_scale.
  - rewrite Hr. reflexivity.
  - rewrite Hg. reflexivity.
  - rewrite Hb. reflexivity.
Qed.

(** C8: the faces that reach the network, foreground and background, are
    the crops turned to gray, every pixel the sum of its red, green and
    blue values weighted by 0.299, 0.587 and 0.114, then resized to
    128x128 in bilinear mode without corner alignment (and cast to the
    precision of the network); the pixel (255, 0, 0) becomes
    255 * 0.299. *)
Theorem embed_image_tensor_grayscale images T bleed bg whole grad crops :
  fg_face_crops (retinaface self images (128, 128)%nat T bleed whole) = Some crops ->
  let run := embed_image_tensor self images T bleed bg whole grad in
  let prepared (c : list rgb_image) :=
    to_dtype (interpolate (rgb_to_gray <$> c) (128, 128)%nat Bilinear false) (self_dtype self) in
  Arcface FgFaces grad (prepared crops) ∈ trace run /\
  fg_embeddings run = Some (arcface self (prepared crops)) /\
  (forall site g input, Arcface site g input ∈ trace run ->
     input = prepared crops \/
     exists bg_crops,
       bg_face_crops_flat (retinaface self images (128, 128)%nat T bleed whole) = Some bg_crops /\
       site = BgFaces /\ input = prepared bg_crops) /\
  (forall crop y x r g b,
     pixel (red crop) y x = Some r -> pixel (green crop) y x = Some g ->
     pixel (blue crop) y x = Some b ->
     pixel (rgb_to_gray crop) y x = Some (r * 0.299 + g * 0.587 + b * 0.114)) /\
  pixel (rgb_to_gray (RGB [[255]] [[0]] [[0]])) 0 0 = Some (255 * 0.299).
Proof.
  intros Hfg run prepared. subst run.
  rewrite embed_fg_embeddings, embed_run. simpl. rewrite Hfg. simpl.
  split; [|split; [|split; [|split]]].
  - destruct bg; [destruct (bg_face_crops_flat _)|]; apply elem_of_cons; left; reflexivity.
  - reflexivity.
  - intros site g input Hin.
    destruct bg; [destruct (bg_face_crops_flat _) as [bgc|]|];
      unfold trace in Hin; simpl in Hin;
      rewrite ?elem_of_cons, elem_of_nil in Hin.
    + destruct Hin as [[= -> -> ->]|[[= -> -> ->]|[]]]; [left; reflexivity|].
      right. exists bgc. auto.
    + destruct Hin as [[= -> -> ->]|[]]. left. reflexivity.
    + destruct Hin as [[= -> -> ->]|[]]. left. reflexivity.
  - intros crop y x r g b. apply rgb_to_gray_pixel.
  - rewrite (rgb_to_gray_pixel _ 0 0 255 0 0) by reflexivity. f_equal. lra.
Qed.

(** Every run of [embed_image_tensor] returns; it evaluates the network
    and does nothing else, on background faces only when asked to and when
    there are some. *)
Lemma embed_ok images T bleed bg whole grad :
  exists t fg_emb bg_emb boxes,
    embed_image_tensor self images T bleed bg whole grad =
      (t, Ok (fg_emb, bg_emb, boxes,
              failed_inst_indices (retinaface self images (128, 128)%nat T bleed whole))) /\
    (bg = false \/
     bg_face_crops_flat (retinaface self images (128, 128)%nat T bleed whole) = None ->
     bg_emb = None /\ forall g x, Arcface BgFaces g x ∉ t) /\
    (forall ev, ev ∈ t -> exists site g x, ev = Arcface site g x).
Proof.
  rewrite embed_run. simpl.
  destruct (fg_face_crops _) as [fg|].
  - destruct bg; [destruct (bg_face_crops_flat _) as [bgc|]|];
      (do 4 eexists; split; [reflexivity|]; split;
       [ intros Hno;
         first [ solve [destruct Hno as [Hno|Hno]; discriminate Hno]
               | split; [reflexivity|]; intros g x Hin;
                 apply list_elem_of_singleton in Hin; discriminate Hin ]
       | intros ev Hin;
         rewrite ?elem_of_cons, elem_of_nil in Hin;
         repeat (destruct Hin as [->|Hin]; [eauto|]); destruct Hin ]).
  - do 4 eexists. split; [reflexivity|]. split.
    + intros _. split; [reflexivity|]. intros g x Hin. inversion Hin.
    + intros ev Hin. inversion Hin.
Qed.

(** A run of [calc_arcface_align_loss]: the two runs of
    [embed_image_tensor], then lines 99 to 127 on their results. *)
Lemma calc_split ref al T bleed s w t1 r1 t2 r2 :
  embed_image_tensor self ref T bleed false false false = (t1, Ok r1) ->
  embed_image_tensor self al T bleed s w true = (t2, Ok r2) ->
  calc_arcface_align_loss self ref al T bleed s w =
    (t1 ++ t2 ++ trace (losses_of_embeddings s r1 r2),
     outcome (losses_of_embeddings s r1 r2)).
Proof.
  intros H1 H2. unfold calc_arcface_align_loss, mbind, M_bind.
  rewrite H1, H2. destruct (losses_of_embeddings s r1 r2). reflexivity.
Qed.

Lemma calc_trace ref al T bleed s w t1 r1 t2 r2 :
  embed_image_tensor self ref T bleed false false false = (t1, Ok r1) ->
  embed_image_tensor self al T bleed s w true = (t2, Ok r2) ->
  trace (calc_arcface_align_loss self ref al T bleed s w) =
    t1 ++ t2 ++ trace (losses_of_embeddings s r1 r2).
Proof. intros H1 H2. rewrite (calc_split _ _ _ _ _ _ _ _ _ _ H1 H2). reflexivity. Qed.

Lemma calc_outcome ref al T bleed s w t1 r1 t2 r2 :
  embed_image_tensor self ref T bleed false false false = (t1, Ok r1) ->
  embed_image_tensor self al T bleed s w true = (t2, Ok r2) ->
  outcome (calc_arcface_align_loss self ref al T bleed s w) =
    outcome (losses_of_embeddings s r1 r2).
Proof. intros H1 H2. rewrite (calc_split _ _ _ _ _ _ _ _ _ _ H1 H2). reflexivity. Qed.

(** Lines 100 to 105: a failed instance on either side ends the run. *)
Lemma losses_short_circuit s e1 b1 x1 f1 e2 b2 x2 f2 :
  f1 <> [] \/ f2 <> [] ->
  losses_of_embeddings s (e1, b1, x1, f1) (e2, b2, x2, f2) =
    ([Print (if (0 <? length f1)%nat then FailedRef f1 else FailedAligned f2)],
     Ok (0, 0, None)).
Proof.
  intros Hf. unfold losses_of_embeddings.
  destruct f1 as [|i f1]; simpl.
  - destruct f2 as [|j f2]; simpl; [|reflexivity].
    destruct Hf as [Hf|Hf]; congruence.
  - reflexivity.
Qed.

(** C1: when one of the two runs of [embed_image_tensor] reports a failed
    instance, [calc_arcface_align_loss] returns the two zero losses and no
    bounding boxes; the loss function is not evaluated and no loss is
    printed, the failed instances are. *)
Theorem calc_arcface_align_loss_short_circuit ref al T bleed s w :
  let ref_run := embed_image_tensor self ref T bleed false false false in
  let aligned_run := embed_image_tensor self al T bleed s w true in
  let run := calc_arcface_align_loss self ref al T bleed s w in
  (reported_failed ref_run <> [] \/ reported_failed aligned_run <> []) ->
  outcome run = Ok (0, 0, None) /\
  (forall x1 x2 target, CosineEmbeddingLoss x1 x2 target ∉ trace run) /\
  (forall l, (Print (LossAlign l) ∉ trace run) /\ (Print (LossBgSuppress l) ∉ trace run)) /\
  (Print (FailedRef (reported_failed ref_run)) ∈ trace run \/
   Print (FailedAligned (reported_failed aligned_run)) ∈ trace run).
Proof.
  intros ref_run aligned_run run. subst ref_run aligned_run run.
  destruct (embed_ok ref T bleed false false false) as (t1 & e1 & b1 & x1 & E1 & _ & Hev1).
  destruct (embed_ok al T bleed s w true) as (t2 & e2 & b2 & x2 & E2 & _ & Hev2).
  rewrite !embed_reported_failed.
  rewrite (calc_trace _ _ _ _ _ _ _ _ _ _ E1 E2), (calc_outcome _ _ _ _ _ _ _ _ _ _ E1 E2).
  set (f1 := failed_inst_indices (retinaface self ref (128, 128)%nat T bleed false)).
  set (f2 := failed_inst_indices (retinaface self al (128, 128)%nat T bleed w)).
  intros Hfailed.
  rewrite (losses_short_circuit _ _ _ _ _ _ _ _ _ Hfailed).
  unfold trace, outcome. simpl.
  assert (Hnot : forall ev, (forall site g x, ev <> Arcface site g x) ->
            (forall f, ev <> Print (FailedRef f)) ->
            (forall f, ev <> Print (FailedAligned f)) ->
            ev ∉ (t1 ++ t2 ++
                  [Print (if (0 <? length f1)%nat then FailedRef f1 else FailedAligned f2)])).
  { intros ev Harc Hfr Hfa Hin.
    rewrite !elem_of_app, list_elem_of_singleton in Hin.
    destruct Hin as [Hin|[Hin|Hin]].
    - destruct (Hev1 _ Hin) as (site & g & x & ->). exact (Harc _ _ _ eq_refl).
    - destruct (Hev2 _ Hin) as (site & g & x & ->). exact (Harc _ _ _ eq_refl).
    - destruct (0 <? _)%nat; [exact (Hfr _ Hin)|exact (Hfa _ Hin)]. }
  split; [reflexivity|]. split; [|split].
  - intros x1' x2' tg. apply Hnot; discriminate.
  - intros l. split; apply Hnot; discriminate.
  - rewrite !elem_of_app, !list_elem_of_singleton.
    destruct f1 as [|i f1']; simpl.
    + right. right. right. reflexivity.
    + left. right. right. reflexivity.
Qed.

(** Lines 107 to 127 when no instance failed and both sides have
    embeddings. *)
Lemma losses_success s ref_emb aligned_emb b1 x1 b2 x2 :
  losses_of_embeddings s (Some ref_emb, b1, x1, []) (Some aligned_emb, b2, x2, []) =
  let n := length ref_emb in
  let m := length aligned_emb in
  if ((n <? m) && (n =? 0))%nat then ([], Raise ZeroDivisionError)
  else
    let tiled := if (n <? m)%nat then tensor_repeat ref_emb (m / n) else ref_emb in
    let target := ones (length tiled) in
    match cosine_embedding_loss tiled aligned_emb target with
    | Raise e => ([CosineEmbeddingLoss tiled aligned_emb target], Raise e)
    | Ok l =>
        match s, b2 with
        | true, Some bg =>
            ([CosineEmbeddingLoss tiled aligned_emb target; Print (LossAlign l);
              Print (LossBgSuppress (mean_square bg))], Ok (l, mean_square bg, x2))
        | true, None =>
            ([CosineEmbeddingLoss tiled aligned_emb target; Print (LossAlign l);
              Print NoBgFaces], Ok (l, 0, x2))
        | false, _ =>
            ([CosineEmbeddingLoss tiled aligned_emb target; Print (LossAlign l)],
             Ok (l, 0, x2))
        end
    end.
Proof.
  unfold losses_of_embeddings. simpl.
  destruct (length ref_emb <? length aligned_emb)%nat; simpl.
  - unfold floordiv. destruct (length ref_emb =? 0)%nat; simpl; [reflexivity|].
    destruct (cosine_embedding_loss _ _ _); simpl; [|reflexivity].
    destruct s; [destruct b2|]; reflexivity.
  - destruct (cosine_embedding_loss _ _ _); simpl; [|reflexivity].
    destruct s; [destruct b2|]; reflexivity.
Qed.

(** [len(None)] at line 110. *)
Lemma losses_no_tensor s e1 b1 x1 e2 b2 x2 :
  e1 = None \/ e2 = None ->
  losses_of_embeddings s (e1, b1, x1, []) (e2, b2, x2, []) = ([], Raise TypeError).
Proof.
  intros Hnone. unfold losses_of_embeddings. simpl.
  destruct e1 as [r|]; [|reflexivity].
  destruct e2 as [a|]; [|reflexivity].
  destruct Hnone; discriminate.
Qed.

(** Without background embeddings the second loss is zero, and asking for
    the suppression changes the printed lines only. *)
Lemma losses_without_bg s r1 e2 x2 f2 :
  (forall l b boxes,
     outcome (losses_of_embeddings s r1 (e2, None, x2, f2)) = Ok (l, b, boxes) -> b = 0) /\
  outcome (losses_of_embeddings s r1 (e2, None, x2, f2)) =
  outcome (losses_of_embeddings false r1 (e2, None, x2, f2)).
Proof.
  destruct r1 as [[[e1 b1] x1] f1].
  destruct (decide (f1 <> [] \/ f2 <> [])) as [Hf|Hf].
  - rewrite !(losses_short_circuit _ _ _ _ _ _ _ _ _ Hf). unfold outcome. simpl.
    split; [|reflexivity]. intros l b boxes [= _ <- _]. reflexivity.
  - assert (f1 = []) as -> by (destruct f1; [reflexivity|exfalso; apply Hf; left; discriminate]).
    assert (f2 = []) as -> by (destruct f2; [reflexivity|exfalso; apply Hf; right; discriminate]).
    destruct e1 as [ref_emb|]; [destruct e2 as [aligned_emb|]|].
    + rewrite !losses_success. simpl.
      destruct (_ && _); [split; [discriminate|reflexivity]|].
      destruct (cosine_embedding_loss _ _ _); [|split; [discriminate|reflexivity]].
      destruct s; unfold outcome; simpl;
        (split; [intros l b boxes [= _ <- _]; reflexivity|reflexivity]).
    + rewrite !losses_no_tensor by auto. split; [discriminate|reflexivity].
    + rewrite !losses_no_tensor by auto. split; [discriminate|reflexivity].
Qed.

(** Lines 99 to 127 evaluate the loss function and print; the network is
    evaluated before. *)
Lemma losses_no_arcface s r1 r2 site g x :
  Arcface site g x ∉ trace (losses_of_embeddings s r1 r2).
Proof.
  destruct r1 as [[[e1 b1] x1] f1], r2 as [[[e2 b2] x2] f2].
  destruct (decide (f1 <> [] \/ f2 <> [])) as [Hf|Hf].
  - rewrite (losses_short_circuit _ _ _ _ _ _ _ _ _ Hf). unfold trace. simpl.
    intros Hin. apply list_elem_of_singleton in Hin. discriminate Hin.
  - assert (f1 = []) as -> by (destruct f1; [reflexivity|exfalso; apply Hf; left; discriminate]).
    assert (f2 = []) as -> by (destruct f2; [reflexivity|exfalso; apply Hf; right; discriminate]).
    destruct e1 as [ref_emb|]; [destruct e2 as [aligned_emb|]|].
    + rewrite losses_success. simpl.
      destruct (_ && _); [apply not_elem_of_nil|].
      destruct (cosine_embedding_loss _ _ _); [destruct s; [destruct b2|]|];
        unfold trace; simpl; intros Hin;
        rewrite ?elem_of_cons, elem_of_nil in Hin;
        repeat (destruct Hin as [Hin|Hin]; [discriminate Hin|]); exact Hin.
    + rewrite losses_no_tensor by auto. apply not_elem_of_nil.
    + rewrite losses_no_tensor by auto. apply not_elem_of_nil.
Qed.

Lemma embed_bg_none images T bleed whole grad :
  bg_face_crops_flat (retinaface self images (128, 128)%nat T bleed whole) = None ->
  embed_image_tensor self images T bleed true whole grad =
  embed_image_tensor self images T bleed false whole grad.
Proof.
  intros Hnone. rewrite !embed_run. simpl. rewrite Hnone. reflexivity.
Qed.

(** C6: without background suppression the network is not evaluated on
    background faces and the background-suppression loss that is returned
    is zero; with the suppression asked for and no background face found,
    the run returns what it returns without the suppression, the
    background-suppression loss zero again. *)
Theorem calc_arcface_align_loss_background ref al T bleed w :
  let run := calc_arcface_align_loss self ref al T bleed false w in
  let run_suppress := calc_arcface_align_loss self ref al T bleed true w in
  (forall g x, Arcface BgFaces g x ∉ trace run) /\
  (forall l b boxes, outcome run = Ok (l, b, boxes) -> b = 0) /\
  (bg_face_crops_flat (retinaface self al (128, 128)%nat T bleed w) = None ->
     outcome run_suppress = outcome run /\
     (forall l b boxes, outcome run_suppress = Ok (l, b, boxes) -> b = 0) /\
     (forall g x, Arcface BgFaces g x ∉ trace run_suppress)).
Proof.
  intros run run_suppress. subst run run_suppress.
  destruct (embed_ok ref T bleed false false false)
    as (t1 & e1 & b1 & x1 & E1 & Hbg1 & _).
  destruct (embed_ok al T bleed false w true) as (t2 & e2 & b2 & x2 & E2 & Hbg2 & _).
  destruct (Hbg1 (or_introl eq_refl)) as [_ Hnobg1].
  destruct (Hbg2 (or_introl eq_refl)) as [-> Hnobg2].
  set (r1 := (e1, b1, x1,
              failed_inst_indices (retinaface self ref (128, 128)%nat T bleed false))) in *.
  set (f2 := failed_inst_indices (retinaface self al (128, 128)%nat T bleed w)) in *.
  assert (Htrace : forall s g x,
            Arcface BgFaces g x ∉ (t1 ++ t2 ++ trace (losses_of_embeddings s r1 (e2, None, x2, f2)))).
  { intros s g x Hin. rewrite !elem_of_app in Hin. destruct Hin as [Hin|[Hin|Hin]].
    - exact (Hnobg1 _ _ Hin).
    - exact (Hnobg2 _ _ Hin).
    - exact (losses_no_arcface _ _ _ _ _ _ Hin). }
  pose proof E2 as E2s.
  rewrite (calc_trace _ _ _ _ _ _ _ _ _ _ E1 E2), (calc_outcome _ _ _ _ _ _ _ _ _ _ E1 E2).
  split; [apply Htrace|]. split; [apply losses_without_bg|].
  intros Hnone. rewrite <- (embed_bg_none _ _ _ _ _ Hnone) in E2s.
  rewrite (calc_trace _ _ _ _ _ _ _ _ _ _ E1 E2s), (calc_outcome _ _ _ _ _ _ _ _ _ _ E1 E2s).
  split; [apply losses_without_bg|]. split; [apply losses_without_bg|apply Htrace].
Qed.

(** Under the contracts a batch of embeddings is never empty: the counts
    compared at line 110 are positive. *)
Lemma embeddings_nonempty images T bleed bg whole grad emb :
  localizer_contract self -> embedder_contract self -> batch_preserving ->
  fg_embeddings (embed_image_tensor self images T bleed bg whole grad) = Some emb ->
  (0 < length emb)%nat.
Proof.
  intros Hloc Hemb Hlib. rewrite embed_fg_embeddings.
  specialize (Hloc images (128, 128)%nat T bleed whole). simpl in Hloc.
  destruct (fg_face_crops _) as [crops|]; simpl; [|discriminate].
  intros [= <-]. rewrite Hemb, arcface_input_length by exact Hlib.
  destruct Hloc as [Hne _]. destruct crops; [congruence|simpl; lia].
Qed.

(** The two runs of [embed_image_tensor], named by what the statements
    assume of them. *)
Lemma embed_named images T bleed bg whole grad emb :
  fg_embeddings (embed_image_tensor self images T bleed bg whole grad) = Some emb ->
  reported_failed (embed_image_tensor self images T bleed bg whole grad) = [] ->
  exists t bg_emb boxes,
    embed_image_tensor self images T bleed bg whole grad =
      (t, Ok (Some emb, bg_emb, boxes, [])).
Proof.
  destruct (embed_ok images T bleed bg whole grad) as (t & e & b & x & E & _ & _).
  unfold fg_embeddings, reported_failed, outcome. rewrite E. simpl.
  intros -> ->. eauto.
Qed.

(** C7: with no failed instance, the alignment loss that is returned is
    the mean, over the pairs of a reference row (tiled when there are
    fewer) and a generated row, of 1 minus their cosine similarity: the
    cosine-embedding loss with the target 1 for every pair. Where the
    reference count divides the generated count, the pairs are the rows in
    order, one to one, and the loss is returned. *)
Theorem calc_arcface_align_loss_value ref al T bleed s w ref_emb aligned_emb :
  let ref_run := embed_image_tensor self ref T bleed false false false in
  let aligned_run := embed_image_tensor self al T bleed s w true in
  let run := calc_arcface_align_loss self ref al T bleed s w in
  let n := length ref_emb in
  let m := length aligned_emb in
  let tiled := if (n <? m)%nat then tensor_repeat ref_emb (m / n) else ref_emb in
  fg_embeddings ref_run = Some ref_emb -> fg_embeddings aligned_run = Some aligned_emb ->
  reported_failed ref_run = [] -> reported_failed aligned_run = [] ->
  (forall l b boxes, outcome run = Ok (l, b, boxes) ->
     cosine_embedding_loss tiled aligned_emb (ones (length tiled)) = Ok l /\
     exists pairs, broadcast tiled aligned_emb = Ok pairs /\
       l = mean ((fun p => 1 - cosine_similarity p.1 p.2) <$> pairs)) /\
  ((0 < n)%nat -> (0 < m)%nat -> Nat.divide n m ->
     length tiled = m /\
     exists b boxes,
       outcome run =
         Ok (mean ((fun p => 1 - cosine_similarity p.1 p.2) <$> zip tiled aligned_emb),
             b, boxes)).
Proof.
  intros ref_run aligned_run run n m tiled He1 He2 Hf1 Hf2.
  destruct (embed_named _ _ _ _ _ _ _ He1 Hf1) as (t1 & b1 & x1 & E1).
  destruct (embed_named _ _ _ _ _ _ _ He2 Hf2) as (t2 & b2 & x2 & E2).
  subst run. rewrite (calc_outcome _ _ _ _ _ _ _ _ _ _ E1 E2).
  rewrite losses_success. fold n m. cbv zeta. fold tiled.
  rewrite cosine_embedding_loss_ones.
  split.
  - intros l b boxes.
    destruct ((n <? m) && (n =? 0))%nat; [discriminate|].
    destruct (broadcast tiled aligned_emb) as [pairs|e]; [|discriminate].
    destruct s; [destruct b2|]; unfold outcome; simpl; intros [= <- _ _];
      (split; [reflexivity|]; exists pairs; split; reflexivity).
  - intros Hn Hm [z Hz].
    assert (Hlen : length tiled = m).
    { subst tiled. destruct (Nat.ltb_spec n m) as [Hlt|Hge].
      - rewrite tensor_repeat_length. fold n. rewrite Hz.
        rewrite Nat.div_mul by lia. reflexivity.
      - fold n. destruct z as [|[|z]]; simpl in Hz; nia. }
    split; [exact Hlen|].
    replace ((n <? m) && (n =? 0))%nat with false
      by (symmetry; apply andb_false_iff; right; apply Nat.eqb_neq; lia).
    rewrite broadcast_same_length by exact Hlen.
    destruct s; [destruct b2|]; unfold outcome; simpl; eauto.
Qed.

(** C2: with fewer reference embeddings than generated ones, the loss
    function receives the reference rows repeated [m / n] times, one copy
    after the other: row [j] of the tiled batch is row [j mod n] of the
    reference batch. Where [n] divides [m] the tiled batch has as many rows
    as the generated batch; a single reference embedding becomes [m] equal
    rows. *)
Theorem calc_arcface_align_loss_tiles ref al T bleed s w ref_emb aligned_emb :
  let ref_run := embed_image_tensor self ref T bleed false false false in
  let aligned_run := embed_image_tensor self al T bleed s w true in
  let run := calc_arcface_align_loss self ref al T bleed s w in
  let n := length ref_emb in
  let m := length aligned_emb in
  let tiled := tensor_repeat ref_emb (m / n) in
  fg_embeddings ref_run = Some ref_emb -> fg_embeddings aligned_run = Some aligned_emb ->
  reported_failed ref_run = [] -> reported_failed aligned_run = [] ->
  (0 < n < m)%nat ->
  CosineEmbeddingLoss tiled aligned_emb (ones (length tiled)) ∈ trace run /\
  length tiled = (m / n * n)%nat /\
  (forall j, (j < m / n * n)%nat -> tiled !! j = ref_emb !! (j mod n)%nat) /\
  (Nat.divide n m -> length tiled = m) /\
  (forall e, ref_emb = [e] -> tiled = replicate m e).
Proof.
  intros ref_run aligned_run run n m tiled He1 He2 Hf1 Hf2 [Hn Hnm].
  destruct (embed_named _ _ _ _ _ _ _ He1 Hf1) as (t1 & b1 & x1 & E1).
  destruct (embed_named _ _ _ _ _ _ _ He2 Hf2) as (t2 & b2 & x2 & E2).
  subst run. rewrite (calc_trace _ _ _ _ _ _ _ _ _ _ E1 E2).
  rewrite losses_success. fold n m. cbv zeta.
  replace (n <? m)%nat with true by (symmetry; apply Nat.ltb_lt; exact Hnm).
  replace (n =? 0)%nat with false by (symmetry; apply Nat.eqb_neq; lia).
  simpl. fold tiled.
  split; [|split; [|split; [|split]]].
  - rewrite !elem_of_app. right. right.
    destruct (cosine_embedding_loss _ _ _); [destruct s; [destruct b2|]|];
      unfold trace; simpl; apply elem_of_cons; left; reflexivity.
  - apply tensor_repeat_length.
  - intros j Hj. apply tensor_repeat_lookup. exact Hj.
  - intros [z Hz]. subst tiled. rewrite tensor_repeat_length. fold n.
    rewrite Hz, Nat.div_mul by lia. reflexivity.
  - intros e He. subst tiled. subst n. rewrite He. cbn [length].
    rewrite Nat.div_1_r. apply tensor_repeat_single.
Qed.

(** C3 (as amended): the function has no check of its own, and yet every
    pair of counts that do not divide ends in an error, but for one kind:
    a single generated embedding against two or more reference embeddings
    (which the loss function broadcasts). With fewer reference embeddings
    the tiled reference batch is shorter than the generated batch, with
    more reference embeddings nothing is tiled; in both cases the loss
    function of the tensor library receives two batches of different
    lengths, neither of them 1, and raises its shape error (an empty
    reference batch divides by zero before). This is said of runs in which
    no instance failed: with a failed instance the function has returned
    zeros before it looks at the counts. *)
Theorem calc_arcface_align_loss_mismatch ref al T bleed s w ref_emb aligned_emb :
  let ref_run := embed_image_tensor self ref T bleed false false false in
  let aligned_run := embed_image_tensor self al T bleed s w true in
  let run := calc_arcface_align_loss self ref al T bleed s w in
  let n := length ref_emb in
  let m := length aligned_emb in
  let tiled := if (n <? m)%nat then tensor_repeat ref_emb (m / n) else ref_emb in
  fg_embeddings ref_run = Some ref_emb -> fg_embeddings aligned_run = Some aligned_emb ->
  reported_failed ref_run = [] -> reported_failed aligned_run = [] ->
  ~ Nat.divide n m ->
  ~ (m = 1%nat /\ (2 <= n)%nat) ->
  outcome run = Raise (if (n =? 0)%nat then ZeroDivisionError else RuntimeError) /\
  ((0 < n)%nat ->
     length tiled <> m /\ length tiled <> 1%nat /\ m <> 1%nat /\
     ((n < m)%nat -> (length tiled < m)%nat) /\
     trace run = trace ref_run ++ trace aligned_run ++
                 [CosineEmbeddingLoss tiled aligned_emb (ones (length tiled))]).
Proof.
  intros ref_run aligned_run run n m tiled He1 He2 Hf1 Hf2 Hdiv Hone.
  destruct (embed_named _ _ _ _ _ _ _ He1 Hf1) as (t1 & b1 & x1 & E1).
  destruct (embed_named _ _ _ _ _ _ _ He2 Hf2) as (t2 & b2 & x2 & E2).
  subst run ref_run aligned_run.
  rewrite (calc_trace _ _ _ _ _ _ _ _ _ _ E1 E2), (calc_outcome _ _ _ _ _ _ _ _ _ _ E1 E2).
  rewrite E1, E2.
  rewrite losses_success. fold n m. cbv zeta. fold tiled.
  assert (Hm0 : n <> 0%nat -> m <> 0%nat).
  { intros _ ->. apply Hdiv. exists 0%nat. reflexivity. }
  assert (Hn1 : n <> 1%nat).
  { intros Hn1. apply Hdiv. exists m. lia. }
  assert (Hnm : n <> m).
  { intros Hnm. apply Hdiv. exists 1%nat. lia. }
  destruct (Nat.eqb_spec n 0) as [Hz|Hnz].
  - replace (n <? m)%nat with true.
    + simpl. split; [reflexivity|]. intros Hn. lia.
    + symmetry. apply Nat.ltb_lt.
      destruct (decide (m = 0)%nat) as [Hm|Hm]; [|lia].
      exfalso. apply Hdiv. exists 0%nat. lia.
  - rewrite andb_false_r.
    assert (Hlen : length tiled <> m /\ length tiled <> 1%nat /\ m <> 1%nat /\
                   ((n < m)%nat -> (length tiled < m)%nat)).
    { subst tiled. destruct (Nat.ltb_spec n m) as [Hlt|Hge].
      - rewrite tensor_repeat_length. fold n.
        pose proof (Nat.Div0.mul_div_le m n) as Hle.
        assert (Hk : (1 <= m / n)%nat) by (apply Nat.div_str_pos; lia).
        assert (Hne : (m / n * n <> m)%nat).
        { intros Heq. apply Hdiv. exists (m / n)%nat. lia. }
        repeat split; intros; nia.
      - fold n. repeat split; intros; lia. }
    destruct Hlen as (Hlen & Hlen1 & Hm1 & Hshort).
    rewrite cosine_embedding_loss_ones.
    rewrite broadcast_mismatch by assumption.
    split; [reflexivity|]. intros _. repeat split; assumption.
Qed.

(** The one kind of pair that C3 as amended leaves out: a single generated
    embedding is compared with each of the reference embeddings and the
    mean is returned. *)
Lemma calc_arcface_align_loss_single_generated ref al T bleed s w ref_emb e :
  let ref_run := embed_image_tensor self ref T bleed false false false in
  let aligned_run := embed_image_tensor self al T bleed s w true in
  let run := calc_arcface_align_loss self ref al T bleed s w in
  fg_embeddings ref_run = Some ref_emb -> fg_embeddings aligned_run = Some [e] ->
  reported_failed ref_run = [] -> reported_failed aligned_run = [] ->
  (2 <= length ref_emb)%nat ->
  exists b boxes,
    outcome run = Ok (mean ((fun r => 1 - cosine_similarity r e) <$> ref_emb), b, boxes).
Proof.
  intros ref_run aligned_run run He1 He2 Hf1 Hf2 Hn.
  destruct (embed_named _ _ _ _ _ _ _ He1 Hf1) as (t1 & b1 & x1 & E1).
  destruct (embed_named _ _ _ _ _ _ _ He2 Hf2) as (t2 & b2 & x2 & E2).
  subst run. rewrite (calc_outcome _ _ _ _ _ _ _ _ _ _ E1 E2).
  rewrite losses_success. cbv zeta. cbn [length].
  replace (length ref_emb <? 1)%nat with false by (symmetry; apply Nat.ltb_ge; lia).
  rewrite andb_false_l.
  rewrite cosine_embedding_loss_ones.
  assert (Hb : broadcast ref_emb [e] = Ok ((fun r => (r, e)) <$> ref_emb)).
  { unfold broadcast. cbn [length].
    replace (length ref_emb =? 1)%nat with false by (symmetry; apply Nat.eqb_neq; lia).
    destruct ref_emb as [|r1 [|r2 ref_emb]]; simpl in Hn; try lia. reflexivity. }
  rewrite Hb. rewrite <- list_fmap_compose.
  destruct s; [destruct b2|]; unfold outcome; simpl; eauto.
Qed.

End Runs.

(** *** Runs with the stand-ins *)

Import StandIn.

Lemma failed_from_length i images :
  (length (List.filter has_face images) + length (failed_from i images))%nat = length images.
Proof.
  revert i. induction images as [|im images IH]; intros i; simpl; [reflexivity|].
  destruct (has_face im); simpl; rewrite <- (IH (S i)); lia.
Qed.

Lemma locate_contract : localizer_contract stand_in.
Proof.
  intros images out_size T bleed whole. simpl.
  pose proof (failed_from_length 0 images) as Hlen.
  destruct (List.filter has_face images) as [|c crops]; simpl in *.
  - exact Hlen.
  - split; [discriminate|exact Hlen].
Qed.

Lemma pixels_contract : embedder_contract stand_in.
Proof. intros faces. simpl. unfold pixels_of. apply length_fmap. Qed.

Lemma plain_preserving : batch_preserving.
Proof. split; reflexivity. Qed.

Lemma calc_arcface_align_loss_short_circuit_witness :
  outcome (calc_arcface_align_loss stand_in [face_a] [face_a; no_face] 20 2 true false)
    = Ok (0, 0, None).
Proof.
  refine (proj1 (calc_arcface_align_loss_short_circuit stand_in
                   [face_a] [face_a; no_face] 20 2 true false _)).
  right. simpl. discriminate.
Defined.

Lemma calc_arcface_align_loss_tiles_witness :
  let e := [1 * 0.299 + 0 * 0.587 + 0 * 0.114] in
  CosineEmbeddingLoss [e; e; e; e] (emb_of [face_a; face_b; face_a; face_b]) (ones 4)
    ∈ trace (calc_arcface_align_loss stand_in [face_a] [face_a; face_b; face_a; face_b]
               20 2 true false).
Proof.
  refine (proj1 (calc_arcface_align_loss_tiles stand_in
                   [face_a] [face_a; face_b; face_a; face_b] 20 2 true false
                   (emb_of [face_a]) (emb_of [face_a; face_b; face_a; face_b])
                   eq_refl eq_refl eq_refl eq_refl _)).
  simpl. lia.
Defined.

Lemma calc_arcface_align_loss_mismatch_witness :
  outcome (calc_arcface_align_loss stand_in [face_a; face_b]
             [face_a; face_b; face_a; face_b; face_a] 20 2 true false)
    = Raise RuntimeError /\
  outcome (calc_arcface_align_loss stand_in [face_a; face_b; face_a]
             [face_a; face_b] 20 2 true false)
    = Raise RuntimeError.
Proof.
  split.
  - refine (proj1 (calc_arcface_align_loss_mismatch stand_in
                     [face_a; face_b] [face_a; face_b; face_a; face_b; face_a] 20 2 true false
                     (emb_of [face_a; face_b])
                     (emb_of [face_a; face_b; face_a; face_b; face_a])
                     eq_refl eq_refl eq_refl eq_refl _ _)).
    + simpl. intros [z Hz]. lia.
    + simpl. lia.
  - refine (proj1 (calc_arcface_align_loss_mismatch stand_in
                     [face_a; face_b; face_a] [face_a; face_b] 20 2 true false
                     (emb_of [face_a; face_b; face_a]) (emb_of [face_a; face_b])
                     eq_refl eq_refl eq_refl eq_refl _ _)).
    + simpl. intros [z Hz]. lia.
    + simpl. lia.
Defined.

(** C3 (as stated) fails: two reference embeddings against one generated
    embedding do not divide, and the run returns a loss, the generated
    embedding compared with each of the two. *)
Lemma calc_arcface_align_loss_silent_mismatch :
  ~ raises_on_mismatch stand_in [face_a; face_b] [face_a] 20 2 true false.
Proof.
  intros Hclaim.
  destruct (Hclaim (emb_of [face_a; face_b]) (emb_of [face_a]) eq_refl eq_refl)
    as [e He].
  - simpl. intros [z Hz]. lia.
  - discriminate He.
Qed.

Lemma embed_image_tensor_batch_size_witness :
  batch_size (fg_embeddings
                (embed_image_tensor stand_in [face_a; no_face; face_b] 20 0 true false true))
    = 2%nat.
Proof.
  exact (proj1 (embed_image_tensor_batch_size stand_in [face_a; no_face; face_b]
                  20 0 true false true locate_contract pixels_contract plain_preserving)).
Defined.

Lemma embed_image_tensor_no_faces_witness :
  embed_image_tensor stand_in [no_face; no_face] 20 0 true false true
    = ([], Ok (None, None, None, [0%nat; 1%nat])).
Proof.
  exact (embed_image_tensor_no_faces stand_in [no_face; no_face] 20 0 true false true eq_refl).
Defined.

Lemma calc_arcface_align_loss_background_witness :
  (exists l boxes,
     outcome (calc_arcface_align_loss stand_in [face_with_bg] [face_with_bg] 20 2 false false)
       = Ok (l, 0, boxes)) /\
  (exists l boxes,
     outcome (calc_arcface_align_loss stand_in [face_a] [face_a] 20 2 true false)
       = Ok (l, 0, boxes)).
Proof.
  pose proof (calc_arcface_align_loss_background stand_in
                [face_with_bg] [face_with_bg] 20 2 false) as (_ & Hzero & _).
  pose proof (calc_arcface_align_loss_background stand_in
                [face_a] [face_a] 20 2 false) as (_ & _ & Hnone).
  destruct (Hnone eq_refl) as (_ & Hzero' & _).
  split.
  - destruct (outcome (calc_arcface_align_loss stand_in [face_with_bg] [face_with_bg]
                         20 2 false false)) as [[[l b] boxes]|e] eqn:Ho.
    + rewrite (Hzero l b boxes eq_refl). eauto.
    + discriminate Ho.
  - destruct (outcome (calc_arcface_align_loss stand_in [face_a] [face_a] 20 2 true false))
      as [[[l b] boxes]|e] eqn:Ho.
    + rewrite (Hzero' l b boxes eq_refl). eauto.
    + discriminate Ho.
Defined.

Lemma calc_arcface_align_loss_value_witness :
  exists b boxes,
    outcome (calc_arcface_align_loss stand_in [face_a] [face_a; face_b] 20 2 true false) =
      Ok (mean ((fun p => 1 - cosine_similarity p.1 p.2) <$>
                  zip (tensor_repeat (emb_of [face_a]) 2) (emb_of [face_a; face_b])),
          b, boxes).
Proof.
  refine (proj2 (proj2 (calc_arcface_align_loss_value stand_in
                   [face_a] [face_a; face_b] 20 2 true false
                   (emb_of [face_a]) (emb_of [face_a; face_b])
                   eq_refl eq_refl eq_refl eq_refl) _ _ _)).
  - simpl. lia.
  - simpl. lia.
  - exists 2%nat. reflexivity.
Defined.

Lemma embed_image_tensor_grayscale_witness :
  fg_embeddings (embed_image_tensor stand_in [face_a; no_face] 20 0 true false true)
    = Some [[1 * 0.299 + 0 * 0.587 + 0 * 0.114]].
Proof.
  exact (proj1 (proj2 (embed_image_tensor_grayscale stand_in [face_a; no_face]
                         20 0 true false true [face_a] eq_refl))).
Defined.

End ArcFaceProofs.

(** ** [backward_warp_by_flow] *)

Module GmaTestProofs.
Import GmaTest.
Local Open Scope R_scope.

Section Frame.
Context (remap : ndarray -> ndarray -> result ndarray).
Implicit Types (h : gmap nat ndarray) (l : nat).

Lemma fresh_unused h : h !! fresh (dom h) = None.
Proof. apply not_elem_of_dom. apply is_fresh. Qed.

(** Writing at an address the caller does not hold keeps what the caller
    holds. *)
Lemma write_elsewhere h0 h1 l a :
  h0 ⊆ h1 -> h0 !! l = None -> h0 ⊆ <[l := a]> h1.
Proof. intros Hsub Hl. apply insert_subseteq_r; assumption. Qed.

Lemma iadd_channel_frame h0 h1 l c fits delta :
  h0 ⊆ h1 -> h0 !! l = None -> h0 ⊆ (iadd_channel l c fits delta h1).2.
Proof.
  intros Hsub Hl. unfold iadd_channel.
  destruct (h1 !! l) as [a|]; [|exact Hsub].
  destruct (dimC a <=? c)%nat; [exact Hsub|].
  destruct (negb (fits a)); [exact Hsub|].
  simpl. apply write_elsewhere; assumption.
Qed.

(** In place means in place: the array at [l] itself does change. *)
Lemma iadd_channel_writes h l c fits delta a :
  h !! l = Some a -> (c < dimC a)%nat -> fits a = true ->
  exists a', (iadd_channel l c fits delta h).2 !! l = Some a' /\
    length (data a') = length (data a) /\
    forall i v, data a !! i = Some v ->
      data a' !! i =
        Some (if (chan_of a i =? c)%nat then v + delta (row_of a i) (col_of a i) else v).
Proof.
  intros Hl Hc Hfits. unfold iadd_channel. rewrite Hl.
  replace (dimC a <=? c)%nat with false by (symmetry; apply Nat.leb_gt; exact Hc).
  rewrite Hfits. simpl. eexists. split; [apply lookup_insert_eq|]. simpl.
  split; [apply length_imap|].
  intros i v Hi. rewrite list_lookup_imap, Hi. reflexivity.
Qed.

Lemma cv2_remap_frame h0 h1 src map1 :
  h0 ⊆ h1 -> h0 ⊆ (cv2_remap remap src map1 h1).2.
Proof.
  intros Hsub. unfold cv2_remap, mbind, N_bind, deref, raise, alloc.
  destruct (h1 !! src) as [s|]; [|exact Hsub].
  destruct (h1 !! map1) as [m|]; [|exact Hsub].
  destruct (remap s m) as [out|e]; [|exact Hsub].
  simpl. etransitivity; [exact Hsub|].
  apply insert_subseteq. apply fresh_unused.
Qed.

(** Every array of the store before the call is in the store after the
    call, with the same contents. *)
Lemma backward_warp_by_flow_extends image2 flow1to2 h :
  h ⊆ (backward_warp_by_flow remap image2 flow1to2 h).2.
Proof.
  unfold backward_warp_by_flow, mbind, N_bind, mret, N_ret, copy, deref, alloc.
  unfold mbind, N_bind.
  destruct (h !! image2) as [img|]; [|reflexivity].
  destruct (h !! flow1to2) as [flow|]; [|reflexivity].
  set (l := fresh (dom h)).
  set (h1 := <[l := flow]> h).
  assert (Hl : h !! l = None) by apply fresh_unused.
  assert (H1 : h ⊆ h1) by (apply insert_subseteq; exact Hl).
  pose proof (iadd_channel_frame h h1 l 0 _ _ H1 Hl : h ⊆ (iadd_arange_x l (dimW img) h1).2)
    as H2.
  destruct (iadd_arange_x l (dimW img) h1) as [[[]|e] h2]; [|exact H2].
  pose proof (iadd_channel_frame h h2 l 1 _ _ H2 Hl : h ⊆ (iadd_arange_y l (dimH img) h2).2)
    as H3.
  destruct (iadd_arange_y l (dimH img) h2) as [[[]|e] h3]; [|exact H3].
  pose proof (cv2_remap_frame h h3 image2 l H3) as H4.
  destruct (cv2_remap remap image2 l h3) as [[out|e] h4]; exact H4.
Qed.

(** C10: the array that the caller passes as the flow is the same after
    the call as before, whatever the call returns or raises; so is every
    other array of the store. The additions go to the copy. *)
Theorem backward_warp_by_flow_keeps_flow image2 flow1to2 h :
  (backward_warp_by_flow remap image2 flow1to2 h).2 !! flow1to2 = h !! flow1to2 /\
  h ⊆ (backward_warp_by_flow remap image2 flow1to2 h).2.
Proof.
  split; [|apply backward_warp_by_flow_extends].
  destruct (h !! flow1to2) as [flow|] eqn:Hflow.
  - eapply lookup_weaken; [exact Hflow|apply backward_warp_by_flow_extends].
  - unfold backward_warp_by_flow, mbind, N_bind, copy, deref.
    unfold mbind, N_bind.
    destruct (h !! image2) as [img|]; rewrite ?Hflow; simpl; rewrite ?Hflow; reflexivity.
Qed.

End Frame.

(** A run on the sample store: the result is a new array, the flow at
    address 1 is as before, the copy at address 2 has the column index
    added to its first channel. *)
Example backward_warp_by_flow_sample :
  let run := backward_warp_by_flow remap_shows_map 0 1 sample_heap in
  run.1 = Ok 3%nat /\
  run.2 !! 1%nat = Some sample_flow /\
  run.2 !! 2%nat = Some (NdArray 1 2 2 [0 + 0; 0 + 0; 0 + 1; 0 + 0]).
Proof. vm_compute. repeat split; reflexivity. Qed.

End GmaTestProofs.

(** ** More on the checkpoint key renaming *)

Module CheckpointInvariants.
Import Checkpoint CheckpointProofs.

Lemma startswith_length (s old : string) :
  startswith s old = true -> String.length old <= String.length s.
Proof.
  revert s. induction old as [|a old IH]; intros s; simpl; [lia|].
  destruct s as [|b s]; [discriminate|].
  intros Hs. apply andb_true_iff in Hs as [_ Hs]. simpl. specialize (IH s Hs). lia.
Qed.

(** Deleting never makes a key longer; with [skip] characters still to
    drop, the result is shorter by as many (or empty). *)
Lemma replace_from_length (old : string) : forall s skip,
  String.length (replace_from old "" skip s) + Nat.min skip (String.length s)
    <= String.length s.
Proof.
  induction s as [|c s IH]; intros skip; simpl; [lia|].
  destruct skip as [|k].
  - destruct (startswith (String c s) old) eqn:Hs; simpl.
    + specialize (IH (String.length old - 1)).
      change ("" +:+ ?x)%string with x. lia.
    + specialize (IH 0). lia.
  - specialize (IH k). lia.
Qed.

Lemma replace_from_shorter (old : string) : forall s,
  old <> ""%string -> occurs old s = true ->
  String.length (replace_from old "" 0 s) < String.length s.
Proof.
  intros s Hold. induction s as [|c s IH]; [discriminate|].
  intros Hocc. cbn [occurs] in Hocc. cbn [replace_from].
  destruct (startswith (String c s) old) eqn:Hs.
  - pose proof (replace_from_length old s (String.length old - 1)).
    change ("" +:+ ?x)%string with x. cbn [String.length]. lia.
  - simpl in Hocc. specialize (IH Hocc). cbn [String.length]. lia.
Qed.

(** X3: renaming changes a key exactly when the key contains ["module."],
    and never makes it longer. *)
Theorem new_key_changes_iff_contains (key : string) :
  (new_key key = key <-> occurs "module." key = false) /\
  String.length (new_key key) <= String.length key.
Proof.
  split.
  - split.
    + intros Heq. destruct (occurs "module." key) eqn:Hocc; [|reflexivity].
      exfalso. pose proof (replace_from_shorter "module." key ltac:(discriminate) Hocc) as Hlt.
      unfold new_key, replace in Heq. rewrite Heq in Hlt. lia.
    + apply prefix_occurs_false.
  - pose proof (replace_from_length "module." key 0) as Hle.
    unfold new_key, replace. lia.
Qed.

Section DictInvariants.
Context {V : Type}.
Implicit Types (d : dict V) (k key : string) (v : V).

Lemma elem_of_keys k d : k ∈ keys d <-> exists v, (k, v) ∈ d.
Proof.
  unfold keys. rewrite list_elem_of_fmap. split.
  - intros ([k' v] & -> & Hin). eauto.
  - intros [v Hin]. exists (k, v). auto.
Qed.

(** [d.pop(key)] on a key of the dictionary. *)
Lemma pop_present key d :
  NoDup (keys d) -> key ∈ keys d ->
  exists v d1, pop key d = Some (v, d1) /\
    (key, v) ∈ d /\
    S (length d1) = length d /\
    NoDup (keys d1) /\
    (forall k, k ∈ keys d1 <-> k ∈ keys d /\ k <> key) /\
    (forall k w, (k, w) ∈ d1 -> (k, w) ∈ d).
Proof.
  induction d as [|[k0 v0] d IH]; intros Hnd Hin; [inversion Hin|].
  change (keys ((k0, v0) :: d)) with (k0 :: keys d) in *.
  apply NoDup_cons in Hnd as [Hk0 Hnd]. simpl.
  destruct (String.eqb_spec k0 key) as [->|Hne].
  - exists v0, d. split; [reflexivity|]. split; [left|].
    split; [reflexivity|]. split; [exact Hnd|]. split.
    + intros k. rewrite elem_of_cons. split.
      * intros Hk. split; [auto|]. intros ->. exact (Hk0 Hk).
      * intros [[->|Hk] Hk']; [congruence|exact Hk].
    + intros k w Hkw. right. exact Hkw.
  - apply elem_of_cons in Hin as [->|Hin]; [congruence|].
    destruct (IH Hnd Hin) as (v & d1 & -> & Hv & Hlen & Hnd1 & Hkeys & Hsub).
    exists v, ((k0, v0) :: d1). split; [reflexivity|]. split; [right; exact Hv|].
    split; [simpl; lia|].
    change (keys ((k0, v0) :: d1)) with (k0 :: keys d1).
    split; [|split].
    + apply NoDup_cons. split; [|exact Hnd1].
      intros Hk. apply Hkeys in Hk as [Hk _]. exact (Hk0 Hk).
    + intros k. rewrite !elem_of_cons, Hkeys. split.
      * intros [->|[Hk Hk']]; auto.
      * intros [[->|Hk] Hk']; auto.
    + intros k w Hkw. apply elem_of_cons in Hkw as [[= -> ->]|Hkw]; [left|right; auto].
Qed.

(** [d[key] = v] *)
Lemma setitem_spec key v d :
  NoDup (keys d) ->
  NoDup (keys (setitem key v d)) /\
  length (setitem key v d) <= S (length d) /\
  (forall k, k ∈ keys (setitem key v d) <-> k = key \/ k ∈ keys d) /\
  (forall k w, (k, w) ∈ setitem key v d -> (k = key /\ w = v) \/ (k, w) ∈ d).
Proof.
  induction d as [|[k0 v0] d IH]; intros Hnd; simpl.
  - split; [apply NoDup_singleton|]. split; [lia|]. split.
    + intros k. change (keys [(key, v)]) with [key].
      rewrite list_elem_of_singleton, elem_of_nil. tauto.
    + intros k w Hkw. apply list_elem_of_singleton in Hkw as [= -> ->]. auto.
  - change (keys ((k0, v0) :: d)) with (k0 :: keys d) in *.
    apply NoDup_cons in Hnd as [Hk0 Hnd].
    destruct (String.eqb_spec k0 key) as [->|Hne].
    + change (keys ((key, v) :: d)) with (key :: keys d).
      split; [apply NoDup_cons; auto|]. split; [simpl; lia|]. split.
      * intros k. rewrite elem_of_cons. tauto.
      * intros k w Hkw. apply elem_of_cons in Hkw as [[= -> ->]|Hkw]; [auto|].
        right. right. exact Hkw.
    + destruct (IH Hnd) as (Hnd' & Hlen & Hkeys & Hent).
      change (keys ((k0, v0) :: setitem key v d)) with (k0 :: keys (setitem key v d)).
      split; [|split; [|split]].
      * apply NoDup_cons. split; [|exact Hnd'].
        intros Hk. apply Hkeys in Hk as [->|Hk]; [congruence|exact (Hk0 Hk)].
      * simpl. lia.
      * intros k. rewrite !elem_of_cons, Hkeys. tauto.
      * intros k w Hkw. apply elem_of_cons in Hkw as [[= -> ->]|Hkw].
        -- right. left.
        -- destruct (Hent _ _ Hkw) as [?|?]; [auto|]. right. right. assumption.
Qed.

(** The loop from any point on: the keys still to visit are keys of the
    dictionary, every other key is a renamed one. *)
Lemma rename_loop_invariant (renamed : string -> Prop) (values : V -> Prop) :
  forall ks d,
    NoDup ks -> NoDup (keys d) ->
    (forall k, k ∈ ks -> k ∈ keys d /\ renamed (new_key k)) ->
    (forall k, k ∈ keys d -> k ∈ ks \/ renamed k) ->
    (forall k v, (k, v) ∈ d -> values v) ->
    exists d', rename_loop ks d = Ok d' /\
      NoDup (keys d') /\ length d' <= length d /\
      (forall k v, (k, v) ∈ d' -> renamed k /\ values v).
Proof.
  induction ks as [|key ks IH]; intros d Hks Hnd Hin Hkeys Hvals.
  - exists d. split; [reflexivity|]. split; [exact Hnd|]. split; [lia|].
    intros k v Hkv. split; [|eauto].
    destruct (Hkeys k) as [Hk|Hk]; [apply elem_of_keys; eauto|inversion Hk|exact Hk].
  - apply NoDup_cons in Hks as [Hkey Hks].
    destruct (Hin key) as [Hpresent Hren]; [left|].
    destruct (pop_present key d Hnd Hpresent)
      as (v & d1 & Hpop & Hv & Hlen1 & Hnd1 & Hkeys1 & Hsub1).
    destruct (setitem_spec (new_key key) v d1 Hnd1) as (Hnd2 & Hlen2 & Hkeys2 & Hent2).
    simpl. rewrite Hpop.
    destruct (IH (setitem (new_key key) v d1)) as (d' & Hd' & Hnd' & Hlen' & Hall).
    + exact Hks.
    + exact Hnd2.
    + intros k Hk. destruct (Hin k) as [Hkd Hkr]; [right; exact Hk|].
      split; [|exact Hkr]. apply Hkeys2. right. apply Hkeys1. split; [exact Hkd|].
      intros ->. exact (Hkey Hk).
    + intros k Hk. apply Hkeys2 in Hk as [->|Hk]; [right; exact Hren|].
      apply Hkeys1 in Hk as [Hk Hne].
      destruct (Hkeys k Hk) as [Hk'|Hk']; [|right; exact Hk'].
      apply elem_of_cons in Hk' as [->|Hk']; [congruence|left; exact Hk'].
    + intros k w Hkw. destruct (Hent2 _ _ Hkw) as [[_ ->]|Hkw']; eauto.
    + exists d'. split; [exact Hd'|]. split; [exact Hnd'|]. split; [lia|exact Hall].
Qed.

(** X1: on a dictionary (its keys distinct) the renaming loop never fails
    on a missing key; what it returns is a dictionary again, with at most
    as many entries, each under the renamed name of a key of the
    checkpoint and holding a tensor of the checkpoint. *)
Theorem rename_keys_never_fails (d : dict V) :
  NoDup (keys d) ->
  exists d', rename_keys d = Ok d' /\
    NoDup (keys d') /\ length d' <= length d /\
    (forall k v, (k, v) ∈ d' ->
       (exists k0, k0 ∈ keys d /\ k = new_key k0) /\ (exists k1, (k1, v) ∈ d)).
Proof.
  intros Hnd. unfold rename_keys.
  apply (rename_loop_invariant
           (fun k => exists k0, k0 ∈ keys d /\ k = new_key k0)
           (fun v => exists k1, (k1, v) ∈ d)); auto.
  - intros k Hk. split; [exact Hk|]. eauto.
  - intros k v Hkv. eauto.
Qed.

(** X2: a checkpoint none of whose keys contains ["module."] goes through
    the loop unchanged, its entries in their order. *)
Theorem rename_keys_unchanged (d : dict V) :
  NoDup (keys d) ->
  (forall k, k ∈ keys d -> occurs "module." k = false) ->
  rename_keys d = Ok d.
Proof.
  intros Hnd Hfree.
  assert (Hid : forall k, k ∈ keys d -> new_key k = k).
  { intros k Hk. apply prefix_occurs_false. exact (Hfree k Hk). }
  assert (Hkeys : new_key <$> keys d = keys d).
  { rewrite <- (list_fmap_id (keys d)) at 2.
    apply list_fmap_ext. intros i k Hk. apply Hid.
    apply list_elem_of_lookup. eauto. }
  assert (Hent : rename_entry <$> d = d).
  { rewrite <- (list_fmap_id d) at 2.
    apply list_fmap_ext. intros i [k v] Hkv. unfold rename_entry. simpl.
    rewrite Hid; [reflexivity|].
    apply elem_of_keys. exists v. apply list_elem_of_lookup. eauto. }
  unfold rename_keys. rewrite <- (app_nil_r d) at 2.
  rewrite (rename_loop_acc d []).
  - simpl. rewrite Hent. reflexivity.
  - rewrite Hkeys. exact Hnd.
  - intros k k' Hk Hk' Hne. rewrite (Hid k Hk). exact Hne.
  - intros k _ Hin. inversion Hin.
Qed.

End DictInvariants.

End CheckpointInvariants.

(** ** [load_image_for_arcface] and the range of the gray values *)

Module LoadImageProofs.
Import Torch ArcFaceWrapper LoadImage.
Local Open Scope R_scope.

Lemma pixel_normalize (plane : list (list Z)) y x :
  pixel (normalize plane) y x =
  (fun v => (IZR v - 127.5) / 127.5) <$> (row ← plane !! y; row !! x).
Proof.
  unfold pixel, normalize. rewrite list_lookup_fmap.
  destruct (plane !! y) as [row|]; simpl; [apply list_lookup_fmap|reflexivity].
Qed.

Lemma plane_lookup {A : Type} (f : Z * Z * Z -> A) (image : list (list (Z * Z * Z))) y x :
  (row ← ((fun row : list (Z * Z * Z) => f <$> row) <$> image) !! y; row !! x) =
  f <$> (row ← image !! y; row !! x).
Proof.
  rewrite list_lookup_fmap.
  destruct (image !! y) as [row|]; simpl; [apply list_lookup_fmap|reflexivity].
Qed.

Lemma normalize_range (v : Z) :
  (0 <= v <= 255)%Z -> -1 <= (IZR v - 127.5) / 127.5 <= 1.
Proof.
  intros [Hlo Hhi]. apply IZR_le in Hlo, Hhi.
  split.
  - apply Rmult_le_reg_r with 127.5; [lra|]. unfold Rdiv.
    rewrite Rmult_assoc, Rinv_l by lra. lra.
  - apply Rmult_le_reg_r with 127.5; [lra|]. unfold Rdiv.
    rewrite Rmult_assoc, Rinv_l by lra. lra.
Qed.

(** X4: for a readable file the result is a batch of one image whose
    planes are in RGB order although the file is read as BGR: at every
    position the red, green and blue planes hold the red, green and blue
    byte of the pixel, each as [(v - 127.5) / 127.5]. *)
Theorem load_image_for_arcface_pixel imread img_path image y x row b g r :
  imread img_path = Some image ->
  image !! y = Some row -> row !! x = Some (b, g, r) ->
  exists im,
    load_image_for_arcface imread img_path = Some [im] /\
    pixel (red im) y x = Some ((IZR r - 127.5) / 127.5) /\
    pixel (green im) y x = Some ((IZR g - 127.5) / 127.5) /\
    pixel (blue im) y x = Some ((IZR b - 127.5) / 127.5).
Proof.
  intros Hread Hrow Hpix. unfold load_image_for_arcface. rewrite Hread. simpl.
  eexists. split; [reflexivity|]. simpl.
  rewrite !pixel_normalize, !plane_lookup.
  unfold cvtColor_BGR2RGB. rewrite !plane_lookup, Hrow. simpl. rewrite Hpix. simpl.
  repeat split; reflexivity.
Qed.

(** X5: a file that cannot be read gives [None]; a readable file whose
    bytes are in [0, 255] gives an image with every value of every plane in
    [[-1, 1]]. *)
Theorem load_image_for_arcface_range imread img_path :
  match imread img_path with
  | None => load_image_for_arcface imread img_path = None
  | Some image =>
      (forall row b g r, row ∈ image -> (b, g, r) ∈ row ->
         (0 <= b <= 255 /\ 0 <= g <= 255 /\ 0 <= r <= 255)%Z) ->
      exists im,
        load_image_for_arcface imread img_path = Some [im] /\
        forall c y x v, c ∈ [red im; green im; blue im] -> pixel c y x = Some v ->
          -1 <= v <= 1
  end.
Proof.
  unfold load_image_for_arcface.
  destruct (imread img_path) as [image|]; [|reflexivity].
  intros Hbytes. simpl. eexists. split; [reflexivity|]. simpl.
  intros c y x v Hc. rewrite !elem_of_cons, elem_of_nil in Hc.
  assert (Hall : forall f : Z * Z * Z -> Z,
            (forall p, f p = p.1.1 \/ f p = p.1.2 \/ f p = p.2) ->
            pixel (normalize ((fun row : list (Z * Z * Z) => f <$> row) <$>
                                cvtColor_BGR2RGB image)) y x = Some v ->
            -1 <= v <= 1).
  { intros f Hf. rewrite pixel_normalize, plane_lookup.
    unfold cvtColor_BGR2RGB. rewrite plane_lookup.
    destruct (image !! y) as [row|] eqn:Hrow; simpl; [|discriminate].
    destruct (row !! x) as [[[b g] r]|] eqn:Hpix; simpl; [|discriminate].
    intros [= <-]. apply normalize_range.
    destruct (Hbytes row b g r) as (Hb & Hg & Hr).
    - apply list_elem_of_lookup. eauto.
    - apply list_elem_of_lookup. eauto.
    - destruct (Hf (r, g, b)) as [-> | [-> | ->]]; simpl; assumption. }
  destruct Hc as [->|[->|[->|[]]]]; apply Hall; intros p; auto.
Qed.

Lemma rgb_to_gray_pixel_inv crop y x v :
  pixel (rgb_to_gray crop) y x = Some v ->
  exists r g b,
    pixel (red crop) y x = Some r /\ pixel (green crop) y x = Some g /\
    pixel (blue crop) y x = Some b /\ v = r * 0.299 + g * 0.587 + b * 0.114.
Proof.
  unfold rgb_to_gray, rgb_to_gray_weights, channel_add, channel_scale, pixel.
  rewrite !lookup_zip_with, !list_lookup_fmap.
  destruct (red crop !! y) as [rr|]; simpl; [|discriminate].
  destruct (green crop !! y) as [gr|]; simpl; [|discriminate].
  destruct (blue crop !! y) as [br|]; simpl; [|discriminate].
  rewrite !lookup_zip_with, !list_lookup_fmap.
  destruct (rr !! x) as [r|]; simpl; [|discriminate].
  destruct (gr !! x) as [g|]; simpl; [|discriminate].
  destruct (br !! x) as [b|]; simpl; [|discriminate].
  intros [= <-]. exists r, g, b. repeat split; reflexivity.
Qed.

(** X6: the gray value is a weighted mean of the three colour values (the
    weights are positive and add up to 1), so the grayscale conversion
    keeps every bound of the colour planes: crops with values in
    [[lo, hi]], as [[-1, 1]] for a normalized image, give gray faces with
    values in [[lo, hi]]. *)
Theorem rgb_to_gray_range crop lo hi :
  (forall c y x v, c ∈ [red crop; green crop; blue crop] -> pixel c y x = Some v ->
     lo <= v <= hi) ->
  forall y x v, pixel (rgb_to_gray crop) y x = Some v -> lo <= v <= hi.
Proof.
  intros Hrange y x v Hv.
  destruct (rgb_to_gray_pixel_inv _ _ _ _ Hv) as (r & g & b & Hr & Hg & Hb & ->).
  assert (lo <= r <= hi)
    by (eapply Hrange; [|exact Hr]; rewrite !elem_of_cons; auto).
  assert (lo <= g <= hi)
    by (eapply Hrange; [|exact Hg]; rewrite !elem_of_cons; auto).
  assert (lo <= b <= hi)
    by (eapply Hrange; [|exact Hb]; rewrite !elem_of_cons; auto).
  lra.
Qed.

End LoadImageProofs.

(** ** More on the tensor operations: bounds of the two losses *)

Module TorchBounds.
Import Torch TorchProofs.
Local Open Scope R_scope.

Lemma sum_nonneg (l : list R) : Forall (fun v => 0 <= v) l -> 0 <= sum l.
Proof.
  induction 1 as [|v l Hv _ IH]; simpl; [lra|]. unfold sum in *. simpl. lra.
Qed.

Lemma dot_self_nonneg (x : vec) : 0 <= dot x x.
Proof.
  unfold dot. apply sum_nonneg.
  induction x as [|a x IH]; simpl; constructor; [nra|exact IH].
Qed.

Lemma dot_cons a b (x y : vec) : dot (a :: x) (b :: y) = a * b + dot x y.
Proof. reflexivity. Qed.

(** The Cauchy-Schwarz inequality for rows. *)
Lemma cauchy_schwarz (x : vec) : forall y : vec, dot x y * dot x y <= dot x x * dot y y.
Proof.
  induction x as [|a x IH]; intros [|b y].
  - unfold dot. simpl. lra.
  - unfold dot at 1 2 3. simpl. lra.
  - pose proof (dot_self_nonneg (a :: x)). unfold dot at 1 2 4. simpl. lra.
  - rewrite !dot_cons. specialize (IH y).
    pose proof (dot_self_nonneg x) as HX. pose proof (dot_self_nonneg y) as HY.
    set (s := dot x y) in *. set (X := dot x x) in *. set (Y := dot y y) in *.
    assert (Hcross : 2 * (a * b * s) <= a * a * Y + b * b * X).
    { destruct (Req_dec X 0) as [HX0|HX0].
      - assert (Hs : s = 0) by nra. rewrite Hs, HX0. nra.
      - assert (0 < X) by lra.
        apply Rmult_le_reg_l with X; [assumption|].
        pose proof (Rle_0_sqr (a * s - b * X)) as Hsq. unfold Rsqr in Hsq.
        assert (0 <= a * a * (X * Y - s * s)) by (apply Rmult_le_pos; nra).
        nra. }
    nra.
Qed.

(** The similarity that the loss function computes lies between -1 and
    1. *)
Lemma cosine_similarity_range (x y : vec) : -1 <= cosine_similarity x y <= 1.
Proof.
  unfold cosine_similarity, EPSILON.
  pose proof (dot_self_nonneg x) as HX. pose proof (dot_self_nonneg y) as HY.
  pose proof (cauchy_schwarz x y) as Hcs.
  set (P := (dot x x + 1e-12) * (dot y y + 1e-12)).
  assert (HP : 0 < P) by (unfold P; apply Rmult_lt_0_compat; lra).
  assert (HD : 0 < sqrt P) by (apply sqrt_lt_R0; exact HP).
  assert (Hsq : Rsqr (dot x y) <= Rsqr (sqrt P)).
  { rewrite Rsqr_sqrt by lra. unfold Rsqr, P. nra. }
  assert (Hhi : dot x y <= sqrt P) by (apply Rsqr_incr_0_var; [exact Hsq|lra]).
  assert (Hlo : - sqrt P <= dot x y) by (apply Rsqr_neg_pos_le_0; [exact Hsq|lra]).
  split.
  - apply Rmult_le_reg_r with (sqrt P); [exact HD|]. unfold Rdiv.
    rewrite Rmult_assoc, Rinv_l by lra. lra.
  - apply Rmult_le_reg_r with (sqrt P); [exact HD|]. unfold Rdiv.
    rewrite Rmult_assoc, Rinv_l by lra. lra.
Qed.

Lemma sum_bounds (l : list R) lo hi :
  Forall (fun v => lo <= v <= hi) l ->
  INR (length l) * lo <= sum l <= INR (length l) * hi.
Proof.
  induction 1 as [|v l Hv _ IH].
  - unfold sum. simpl. lra.
  - rewrite length_cons, S_INR. unfold sum in *. simpl. lra.
Qed.

(** The mean of values between [lo] and [hi] lies between them (the mean of
    no value is 0 here). *)
Lemma mean_range (l : list R) lo hi :
  lo <= 0 <= hi -> Forall (fun v => lo <= v <= hi) l -> lo <= mean l <= hi.
Proof.
  intros H0 Hall. unfold mean. destruct l as [|v l].
  - unfold sum. simpl. unfold Rdiv. rewrite Rmult_0_l. exact H0.
  - pose proof (sum_bounds _ _ _ Hall) as [Hlo Hhi].
    assert (Hn : 0 < INR (length (v :: l))) by (apply lt_0_INR; simpl; lia).
    split.
    + apply Rmult_le_reg_r with (INR (length (v :: l))); [exact Hn|].
      unfold Rdiv. rewrite Rmult_assoc, Rinv_l by lra. lra.
    + apply Rmult_le_reg_r with (INR (length (v :: l))); [exact Hn|].
      unfold Rdiv. rewrite Rmult_assoc, Rinv_l by lra. lra.
Qed.

(** With a target of ones, whatever the two batches, a loss that
    [cosine_embedding_loss] returns lies between 0 and 2. *)
Lemma cosine_embedding_loss_range (x1 x2 : tensor2) (l : R) :
  cosine_embedding_loss x1 x2 (ones (length x1)) = Ok l -> 0 <= l <= 2.
Proof.
  rewrite cosine_embedding_loss_ones.
  destruct (broadcast x1 x2) as [pairs|e]; [|discriminate].
  intros [= <-]. apply mean_range; [lra|].
  apply Forall_fmap, Forall_forall. intros p _. simpl.
  pose proof (cosine_similarity_range p.1 p.2). lra.
Qed.

Lemma squares_nonneg (l : list R) : Forall (fun v => 0 <= v) ((fun x => x * x) <$> l).
Proof. apply Forall_fmap, Forall_forall. intros x _. simpl. nra. Qed.

Lemma sum_squares_zero (l : list R) :
  sum ((fun x => x * x) <$> l) = 0 -> Forall (fun x => x = 0) l.
Proof.
  induction l as [|a l IH]; [constructor|].
  rewrite fmap_cons. unfold sum in *. simpl. intros Hsum.
  pose proof (sum_nonneg _ (squares_nonneg l)) as Hrest. unfold sum in Hrest.
  constructor; [nra|]. apply IH. nra.
Qed.

Lemma mean_nonneg (l : list R) : Forall (fun v => 0 <= v) l -> 0 <= mean l.
Proof.
  intros Hall. unfold mean. destruct l as [|v l].
  - unfold sum. simpl. unfold Rdiv. rewrite Rmult_0_l. lra.
  - pose proof (sum_nonneg _ Hall).
    assert (0 < INR (length (v :: l))) by (apply lt_0_INR; simpl; lia).
    apply Rmult_le_reg_r with (INR (length (v :: l))); [assumption|].
    unfold Rdiv. rewrite Rmult_assoc, Rinv_l by lra. lra.
Qed.

Lemma Forall_mjoin {A : Type} (P : A -> Prop) (ls : list (list A)) :
  Forall P (mjoin ls) <-> Forall (Forall P) ls.
Proof.
  induction ls as [|l ls IH]; simpl.
  - split; constructor.
  - rewrite Forall_app, Forall_cons, IH. reflexivity.
Qed.

(** The loss [(t ** 2).mean()] is never negative, and on a tensor with at
    least one component it is zero exactly when every component is zero. *)
Lemma mean_square_zero_iff (t : tensor2) :
  0 <= mean_square t /\
  (mjoin t <> [] -> (mean_square t = 0 <-> Forall (Forall (fun x => x = 0)) t)).
Proof.
  unfold mean_square. split; [apply mean_nonneg, squares_nonneg|].
  intros Hne. rewrite <- Forall_mjoin.
  set (l := mjoin t) in *. unfold mean. rewrite length_fmap.
  assert (Hn : 0 < INR (length l)) by (apply lt_0_INR; destruct l; [congruence|simpl; lia]).
  split.
  - intros Hmean. apply sum_squares_zero.
    apply Rmult_eq_compat_r with (r := INR (length l)) in Hmean.
    unfold Rdiv in Hmean. rewrite Rmult_assoc, Rinv_l in Hmean by lra. lra.
  - intros Hall.
    assert (Hsum : sum ((fun x => x * x) <$> l) = 0).
    { clear Hn Hne. induction Hall as [|a l' Ha _ IH]; [reflexivity|].
      rewrite fmap_cons. unfold sum in *. simpl. rewrite IH, Ha. lra. }
    rewrite Hsum. unfold Rdiv. apply Rmult_0_l.
Qed.

End TorchBounds.

(** ** More on [calc_arcface_align_loss]: what a run evaluates and returns *)

Module ArcFaceRuns.
Import Torch ArcFaceWrapper Trace TorchProofs TorchBounds ArcFaceProofs.
Local Open Scope R_scope.

Section Runs.
Context `{TensorLib} (self : wrapper).

Lemma network_evaluations_app t1 t2 :
  network_evaluations (t1 ++ t2) = network_evaluations t1 ++ network_evaluations t2.
Proof. unfold network_evaluations. apply List.filter_app. Qed.

Lemma network_evaluations_none t :
  (forall site g x, Arcface site g x ∉ t) -> network_evaluations t = [].
Proof.
  unfold network_evaluations. induction t as [|ev t IH]; intros Hno; [reflexivity|].
  simpl. destruct ev as [site g x| |]; simpl.
  - exfalso. apply (Hno site g x). left.
  - apply IH. intros site g x Hin. apply (Hno site g x). right. exact Hin.
  - apply IH. intros site g x Hin. apply (Hno site g x). right. exact Hin.
Qed.

(** X7: in every run, also one that ends early or raises, the network is
    evaluated on the reference faces once and with the gradient disabled,
    then on the generated faces with the gradient enabled, then on the
    background faces of the generated images if the suppression is asked
    for and there are some; a side without a face is not evaluated. *)
Theorem calc_arcface_align_loss_evaluations ref al T bleed s w :
  let r_ref := retinaface self ref (128, 128)%nat T bleed false in
  let r_al := retinaface self al (128, 128)%nat T bleed w in
  network_evaluations (trace (calc_arcface_align_loss self ref al T bleed s w)) =
    match fg_face_crops r_ref with
    | Some crops => [Arcface FgFaces false (arcface_input self crops)]
    | None => []
    end ++
    match fg_face_crops r_al with
    | Some crops =>
        Arcface FgFaces true (arcface_input self crops) ::
        match s, bg_face_crops_flat r_al with
        | true, Some bg_crops => [Arcface BgFaces true (arcface_input self bg_crops)]
        | _, _ => []
        end
    | None => []
    end.
Proof.
  intros r_ref r_al.
  destruct (embed_ok self ref T bleed false false false) as (t1 & e1 & b1 & x1 & E1 & _ & _).
  destruct (embed_ok self al T bleed s w true) as (t2 & e2 & b2 & x2 & E2 & _ & _).
  rewrite (calc_trace _ _ _ _ _ _ _ _ _ _ _ E1 E2).
  rewrite !network_evaluations_app.
  rewrite (network_evaluations_none (trace _)) by (intros; apply losses_no_arcface).
  rewrite app_nil_r.
  rewrite embed_run in E1, E2. simpl in E1, E2. fold r_ref in E1. fold r_al in E2.
  f_equal.
  - destruct (fg_face_crops r_ref); injection E1 as <- _; reflexivity.
  - destruct (fg_face_crops r_al); [|injection E2 as <- _; reflexivity].
    destruct s; [destruct (bg_face_crops_flat r_al)|];
      injection E2 as <- _; reflexivity.
Qed.

(** What lines 99 to 127 return, by cases. *)
Lemma losses_outcome s e1 b1 x1 f1 e2 b2 x2 f2 l b boxes :
  outcome (losses_of_embeddings s (e1, b1, x1, f1) (e2, b2, x2, f2)) = Ok (l, b, boxes) ->
  ((f1 <> [] \/ f2 <> []) /\ l = 0 /\ b = 0 /\ boxes = None) \/
  (f1 = [] /\ f2 = [] /\ boxes = x2 /\
   b = match s, b2 with true, Some bg => mean_square bg | _, _ => 0 end /\
   exists ref_emb aligned_emb tiled,
     e1 = Some ref_emb /\ e2 = Some aligned_emb /\
     cosine_embedding_loss tiled aligned_emb (ones (length tiled)) = Ok l).
Proof.
  destruct (decide (f1 <> [] \/ f2 <> [])) as [Hf|Hf].
  - rewrite (losses_short_circuit _ _ _ _ _ _ _ _ _ Hf). unfold outcome. simpl.
    intros [= <- <- <-]. left. auto.
  - assert (f1 = []) as -> by (destruct f1; [reflexivity|exfalso; apply Hf; left; discriminate]).
    assert (f2 = []) as -> by (destruct f2; [reflexivity|exfalso; apply Hf; right; discriminate]).
    destruct e1 as [ref_emb|]; [destruct e2 as [aligned_emb|]|].
    + rewrite losses_success. cbv zeta.
      destruct (_ && _); [discriminate|].
      destruct (cosine_embedding_loss _ _ _) as [l'|e] eqn:Hloss; [|discriminate].
      intros Hout. right. split; [reflexivity|]. split; [reflexivity|].
      destruct s; [destruct b2|]; unfold outcome in Hout; simpl in Hout;
        injection Hout as <- <- <-;
        (split; [reflexivity|]; split; [reflexivity|]; eauto 6).
    + rewrite losses_no_tensor by auto. discriminate.
    + rewrite losses_no_tensor by auto. discriminate.
Qed.

(** X8: a run returns no bounding boxes exactly when an instance failed
    (with both losses zero); otherwise it returns the bounding boxes that
    the localizer found in the generated images, not those of the
    reference images. *)
Theorem calc_arcface_align_loss_boxes ref al T bleed s w l b boxes :
  let r_ref := retinaface self ref (128, 128)%nat T bleed false in
  let r_al := retinaface self al (128, 128)%nat T bleed w in
  outcome (calc_arcface_align_loss self ref al T bleed s w) = Ok (l, b, boxes) ->
  ((failed_inst_indices r_ref <> [] \/ failed_inst_indices r_al <> []) /\
   boxes = None /\ l = 0 /\ b = 0) \/
  (failed_inst_indices r_ref = [] /\ failed_inst_indices r_al = [] /\
   boxes = Some (fg_face_bboxes r_al)).
Proof.
  intros r_ref r_al.
  destruct (embed_ok self ref T bleed false false false) as (t1 & e1 & b1 & x1 & E1 & _ & _).
  destruct (embed_ok self al T bleed s w true) as (t2 & e2 & b2 & x2 & E2 & _ & _).
  rewrite (calc_outcome _ _ _ _ _ _ _ _ _ _ _ E1 E2).
  fold r_ref in E1 |- *. fold r_al in E2 |- *.
  intros Hout. apply losses_outcome in Hout
    as [(Hf & -> & -> & ->)|(Hf1 & Hf2 & -> & _ & (ref_emb & aligned_emb & tiled & _ & -> & _))].
  - left. auto.
  - right. split; [exact Hf1|]. split; [exact Hf2|].
    rewrite embed_run in E2. simpl in E2. fold r_al in E2.
    destruct (fg_face_crops r_al); [|discriminate E2].
    destruct s; [destruct (bg_face_crops_flat r_al)|]; injection E2 as _ _ _ <-; reflexivity.
Qed.

(** With no failed instance and at least one generated embedding, the
    alignment loss that is returned is the mean over at least one pair of
    embeddings. *)
Lemma calc_arcface_align_loss_pairs ref al T bleed s w ref_emb aligned_emb l b boxes :
  let ref_run := embed_image_tensor self ref T bleed false false false in
  let aligned_run := embed_image_tensor self al T bleed s w true in
  let n := length ref_emb in
  let m := length aligned_emb in
  let tiled := if (n <? m)%nat then tensor_repeat ref_emb (m / n) else ref_emb in
  fg_embeddings ref_run = Some ref_emb -> fg_embeddings aligned_run = Some aligned_emb ->
  reported_failed ref_run = [] -> reported_failed aligned_run = [] ->
  aligned_emb <> [] ->
  outcome (calc_arcface_align_loss self ref al T bleed s w) = Ok (l, b, boxes) ->
  exists pairs,
    broadcast tiled aligned_emb = Ok pairs /\ pairs <> [] /\
    l = mean ((fun p => 1 - cosine_similarity p.1 p.2) <$> pairs).
Proof.
  intros ref_run aligned_run n m tiled He1 He2 Hf1 Hf2 Hne.
  destruct (embed_named _ _ _ _ _ _ _ _ He1 Hf1) as (t1 & b1 & x1 & E1).
  destruct (embed_named _ _ _ _ _ _ _ _ He2 Hf2) as (t2 & b2 & x2 & E2).
  rewrite (calc_outcome _ _ _ _ _ _ _ _ _ _ _ E1 E2).
  rewrite losses_success. fold n m. cbv zeta. fold tiled.
  assert (Hm : (0 < m)%nat) by (subst m; destruct aligned_emb; [congruence|simpl; lia]).
  destruct (Nat.eqb_spec n 0) as [Hz|Hnz].
  { replace (n <? m)%nat with true by (symmetry; apply Nat.ltb_lt; lia). discriminate. }
  rewrite andb_false_r.
  assert (Hlen : (0 < length tiled)%nat).
  { subst tiled. destruct (Nat.ltb_spec n m) as [Hlt|Hge]; [|fold n; lia].
    rewrite tensor_repeat_length. fold n.
    assert (Hk : (1 <= m / n)%nat) by (apply Nat.div_str_pos; lia). nia. }
  rewrite cosine_embedding_loss_ones.
  destruct (broadcast tiled aligned_emb) as [pairs|e] eqn:Hb; [|discriminate].
  intros Hout. exists pairs. split; [reflexivity|]. split.
  - apply broadcast_length in Hb. fold m in Hb.
    intros ->. simpl in Hb. lia.
  - destruct s; [destruct b2|]; unfold outcome in Hout; simpl in Hout;
      injection Hout as <- _ _; reflexivity.
Qed.

(** X9: the two losses that a run returns are bounded: the alignment loss
    lies between 0 and 2, the background-suppression loss is not
    negative. This is said of runs whose means are means of at least one
    number: a batch of generated embeddings that is not empty and, where
    there are background embeddings, at least one component in them. *)
Theorem calc_arcface_align_loss_bounds ref al T bleed s w l b boxes :
  let aligned_run := embed_image_tensor self al T bleed s w true in
  outcome (calc_arcface_align_loss self ref al T bleed s w) = Ok (l, b, boxes) ->
  fg_embeddings aligned_run <> Some [] ->
  (forall bg, bg_embeddings aligned_run = Some bg -> mjoin bg <> []) ->
  0 <= l <= 2 /\ 0 <= b.
Proof.
  intros aligned_run Hout _ _. revert Hout.
  destruct (embed_ok self ref T bleed false false false) as (t1 & e1 & b1 & x1 & E1 & _ & _).
  destruct (embed_ok self al T bleed s w true) as (t2 & e2 & b2 & x2 & E2 & _ & _).
  rewrite (calc_outcome _ _ _ _ _ _ _ _ _ _ _ E1 E2).
  intros Hout. apply losses_outcome in Hout
    as [(_ & -> & -> & _)|(_ & _ & _ & -> & (ref_emb & aligned_emb & tiled & _ & _ & Hloss))].
  - lra.
  - split; [exact (cosine_embedding_loss_range _ _ _ Hloss)|].
    destruct s; [destruct b2 as [bg|]|]; try lra.
    apply mean_square_zero_iff.
Qed.

(** X10: with the suppression asked for, no failed instance and background
    faces in the generated images, the background-suppression loss that is
    returned is the mean of the squares of all components of their
    embeddings; it is zero only if every component is zero. *)
Theorem calc_arcface_align_loss_bg_suppress ref al T bleed w l b boxes fg_crops bg_crops :
  let r_al := retinaface self al (128, 128)%nat T bleed w in
  let bg_emb := arcface self (arcface_input self bg_crops) in
  outcome (calc_arcface_align_loss self ref al T bleed true w) = Ok (l, b, boxes) ->
  failed_inst_indices (retinaface self ref (128, 128)%nat T bleed false) = [] ->
  failed_inst_indices r_al = [] ->
  fg_face_crops r_al = Some fg_crops ->
  bg_face_crops_flat r_al = Some bg_crops ->
  b = mean_square bg_emb /\
  (mjoin bg_emb <> [] -> (b = 0 <-> Forall (Forall (fun v => v = 0)) bg_emb)).
Proof.
  intros r_al bg_emb Hout Hf1 Hf2 Hfg Hbg.
  destruct (embed_ok self ref T bleed false false false) as (t1 & e1 & b1 & x1 & E1 & _ & _).
  destruct (embed_ok self al T bleed true w true) as (t2 & e2 & b2 & x2 & E2 & _ & _).
  rewrite (calc_outcome _ _ _ _ _ _ _ _ _ _ _ E1 E2) in Hout.
  fold r_al in E2, Hout.
  rewrite embed_run in E2. simpl in E2. fold r_al in E2. rewrite Hfg, Hbg in E2.
  injection E2 as _ _ <- _.
  apply losses_outcome in Hout
    as [([Hf|Hf] & _)|(_ & _ & _ & -> & _)]; [congruence|congruence|].
  split; [reflexivity|]. apply mean_square_zero_iff.
Qed.

(** X11: the early return looks at the failed-instance lists only. When
    the localizer finds no foreground crops on a side and reports no failed
    instance (as for an empty batch), the run does not return zeros: it
    raises the [TypeError] of [len(None)] at line 110. *)
Theorem calc_arcface_align_loss_none_without_failure ref al T bleed s w :
  let r_ref := retinaface self ref (128, 128)%nat T bleed false in
  let r_al := retinaface self al (128, 128)%nat T bleed w in
  failed_inst_indices r_ref = [] -> failed_inst_indices r_al = [] ->
  fg_face_crops r_ref = None \/ fg_face_crops r_al = None ->
  outcome (calc_arcface_align_loss self ref al T bleed s w) = Raise TypeError.
Proof.
  intros r_ref r_al Hf1 Hf2 Hnone.
  destruct (embed_ok self ref T bleed false false false) as (t1 & e1 & b1 & x1 & E1 & _ & _).
  destruct (embed_ok self al T bleed s w true) as (t2 & e2 & b2 & x2 & E2 & _ & _).
  rewrite (calc_outcome _ _ _ _ _ _ _ _ _ _ _ E1 E2).
  fold r_ref in E1 |- *. fold r_al in E2 |- *. rewrite Hf1, Hf2.
  rewrite losses_no_tensor; [reflexivity|].
  rewrite embed_run in E1, E2. simpl in E1, E2. fold r_ref in E1. fold r_al in E2.
  destruct Hnone as [Hn|Hn]; rewrite Hn in *.
  - left. injection E1 as _ <- _ _. reflexivity.
  - right. injection E2 as _ <- _ _. reflexivity.
Qed.

End Runs.

End ArcFaceRuns.

(** ** More on [backward_warp_by_flow]: the coordinate map and the shapes *)

Module GmaTestRuns.
Import GmaTest GmaTestProofs.
Local Open Scope R_scope.

(** Flat positions of an [H x W x C] array. *)
Lemma flat_position (W C y x c : nat) :
  (x < W)%nat -> (c < C)%nat ->
  let i := ((y * W + x) * C + c)%nat in
  (i mod C = c /\ (i / C) mod W = x /\ i / (C * W) = y)%nat.
Proof.
  intros Hx Hc i. subst i.
  assert (Hdiv : (((y * W + x) * C + c) / C = y * W + x)%nat).
  { symmetry. apply (Nat.div_unique _ _ _ c); [exact Hc|lia]. }
  split; [|split].
  - symmetry. apply (Nat.mod_unique _ _ (y * W + x)); [exact Hc|lia].
  - rewrite Hdiv. symmetry. apply (Nat.mod_unique _ _ y); [exact Hx|lia].
  - symmetry. apply (Nat.div_unique _ _ _ (x * C + c)); [nia|lia].
Qed.

Section Runs.
Context (remap : ndarray -> ndarray -> result ndarray).
Implicit Types (h : gmap nat ndarray) (l : nat).

Lemma iadd_channel_run h l c fits delta a :
  h !! l = Some a -> (c < dimC a)%nat -> fits a = true ->
  iadd_channel l c fits delta h =
    (Ok tt,
     <[l := NdArray (dimH a) (dimW a) (dimC a)
              (imap (fun i v => if (chan_of a i =? c)%nat
                                then v + delta (row_of a i) (col_of a i) else v)
                    (data a))]> h).
Proof.
  intros Hl Hc Hfits. unfold iadd_channel. rewrite Hl.
  replace (dimC a <=? c)%nat with false by (symmetry; apply Nat.leb_gt; exact Hc).
  rewrite Hfits. reflexivity.
Qed.

Lemma iadd_channel_fails h l c fits delta a :
  h !! l = Some a -> (dimC a <= c)%nat \/ fits a = false ->
  exists e, iadd_channel l c fits delta h = (Raise e, h).
Proof.
  intros Hl Hbad. unfold iadd_channel. rewrite Hl.
  destruct (Nat.leb_spec (dimC a) c) as [Hle|Hgt]; [eauto|].
  destruct Hbad as [Hle|Hfits]; [lia|]. rewrite Hfits. simpl. eauto.
Qed.

(** X12: for a flow of the height and width of the image, with two
    channels or more, [cv2.remap] receives the image and a new array that
    is the flow with the column index added to channel 0 and the row index
    added to channel 1 at every position; what [cv2.remap] returns is
    stored at a new address, which is the result. *)
Theorem backward_warp_by_flow_coordinates image2 flow1to2 h img flow :
  h !! image2 = Some img -> h !! flow1to2 = Some flow ->
  dimH flow = dimH img -> dimW flow = dimW img -> (2 <= dimC flow)%nat ->
  exists adjusted,
    (dimH adjusted, dimW adjusted, dimC adjusted) = (dimH flow, dimW flow, dimC flow) /\
    length (data adjusted) = length (data flow) /\
    (forall y x c v, (y < dimH flow)%nat -> (x < dimW flow)%nat -> (c < dimC flow)%nat ->
       data flow !! ((y * dimW flow + x) * dimC flow + c)%nat = Some v ->
       data adjusted !! ((y * dimW flow + x) * dimC flow + c)%nat =
         Some (match c with
               | 0%nat => v + INR x
               | 1%nat => v + INR y
               | _ => v
               end)) /\
    match remap img adjusted with
    | Ok out =>
        exists l, h !! l = None /\
          (backward_warp_by_flow remap image2 flow1to2 h).1 = Ok l /\
          (backward_warp_by_flow remap image2 flow1to2 h).2 !! l = Some out
    | Raise e => (backward_warp_by_flow remap image2 flow1to2 h).1 = Raise e
    end.
Proof.
  intros Himg Hflow HH HW HC.
  set (l := fresh (dom h)).
  assert (Hl : h !! l = None) by apply fresh_unused.
  assert (Hne : image2 <> l) by (intros ->; congruence).
  set (upd1 := fun (i : nat) (v : R) =>
         if (chan_of flow i =? 0)%nat
         then v + (if (dimW img =? 1)%nat then 0 else INR (col_of flow i)) else v).
  set (a1 := NdArray (dimH flow) (dimW flow) (dimC flow) (imap upd1 (data flow))).
  set (upd2 := fun (i : nat) (v : R) =>
         if (chan_of a1 i =? 1)%nat
         then v + (if (dimH img =? 1)%nat then 0 else INR (row_of a1 i)) else v).
  set (a2 := NdArray (dimH a1) (dimW a1) (dimC a1) (imap upd2 (data a1))).
  assert (Hrun : backward_warp_by_flow remap image2 flow1to2 h =
                 match remap img a2 with
                 | Ok out =>
                     let h3 := <[l := a2]> (<[l := a1]> (<[l := flow]> h)) in
                     (Ok (fresh (dom h3)), <[fresh (dom h3) := out]> h3)
                 | Raise e => (Raise e, <[l := a2]> (<[l := a1]> (<[l := flow]> h)))
                 end).
  { unfold backward_warp_by_flow, copy, cv2_remap. unfold mbind, N_bind, deref, alloc.
    rewrite Himg, Hflow. fold l.
    unfold iadd_arange_x.
    rewrite (iadd_channel_run _ l 0 _ _ flow);
      [|apply lookup_insert_eq|lia|rewrite HW, Nat.eqb_refl; reflexivity].
    fold upd1 a1. unfold iadd_arange_y.
    rewrite (iadd_channel_run _ l 1 _ _ a1);
      [|apply lookup_insert_eq|simpl; lia|simpl; rewrite HH, Nat.eqb_refl; reflexivity].
    fold upd2 a2.
    rewrite !lookup_insert_ne by (intros Heq; apply Hne; symmetry; exact Heq).
    rewrite Himg, lookup_insert_eq.
    destruct (remap img a2); reflexivity. }
  exists a2. split; [reflexivity|]. split; [simpl; rewrite !length_imap; reflexivity|].
  split.
  - intros y x c v Hy Hx Hc Hv. simpl.
    rewrite list_lookup_imap, list_lookup_imap, Hv. simpl. f_equal.
    destruct (flat_position (dimW flow) (dimC flow) y x c Hx Hc) as (Hchan & Hcol & Hrow).
    unfold upd2, upd1, chan_of, row_of, col_of. simpl.
    rewrite Hchan, Hcol, Hrow.
    destruct c as [|[|c]]; simpl.
    + destruct (Nat.eqb_spec (dimW img) 1) as [HW1|_]; [|reflexivity].
      assert (x = 0%nat) as -> by lia. reflexivity.
    + destruct (Nat.eqb_spec (dimH img) 1) as [HH1|_]; [|reflexivity].
      assert (y = 0%nat) as -> by lia. reflexivity.
    + reflexivity.
  - rewrite Hrun. destruct (remap img a2) as [out|e]; [|reflexivity].
    eexists. split; [|split; [reflexivity|apply lookup_insert_eq]].
    simpl.
    pose proof (fresh_unused (<[l := a2]> (<[l := a1]> (<[l := flow]> h)))) as Hfresh.
    destruct (decide (fresh (dom (<[l := a2]> (<[l := a1]> (<[l := flow]> h)))) = l))
      as [Heq|Hneq].
    + rewrite Heq in Hfresh. rewrite lookup_insert_eq in Hfresh. discriminate.
    + rewrite !lookup_insert_ne in Hfresh by (intros Heq; apply Hneq; symmetry; exact Heq).
      exact Hfresh.
Qed.

(** X13: a flow that does not fit the image is rejected before
    [cv2.remap]: with fewer than two channels, or with a width or a height
    other than that of the image (unless that is 1), the call raises. *)
Theorem backward_warp_by_flow_rejects image2 flow1to2 h img flow :
  h !! image2 = Some img -> h !! flow1to2 = Some flow ->
  (dimC flow < 2)%nat \/
  (dimW img <> dimW flow /\ dimW img <> 1%nat) \/
  (dimH img <> dimH flow /\ dimH img <> 1%nat) ->
  exists e, (backward_warp_by_flow remap image2 flow1to2 h).1 = Raise e.
Proof.
  intros Himg Hflow Hbad.
  set (l := fresh (dom h)).
  unfold backward_warp_by_flow, copy. unfold mbind, N_bind, deref, alloc.
  rewrite Himg, Hflow. fold l.
  unfold iadd_arange_x.
  destruct (decide ((0 < dimC flow)%nat /\
                    ((dimW img =? dimW flow) || (dimW img =? 1))%nat = true)) as [[Hc Hfit]|Hno].
  - rewrite (iadd_channel_run _ l 0 _ _ flow); [|apply lookup_insert_eq|exact Hc|exact Hfit].
    set (a1 := NdArray _ _ _ _). unfold iadd_arange_y.
    destruct (iadd_channel_fails (<[l := a1]> (<[l := flow]> h)) l 1
                (fun a => (dimH img =? dimH a) || (dimH img =? 1))%nat
                (fun y _ => if (dimH img =? 1)%nat then 0 else INR y) a1) as [e He].
    + apply lookup_insert_eq.
    + simpl. destruct Hbad as [Hbad|[[Hw1 Hw2]|[Hh1 Hh2]]].
      * left. lia.
      * exfalso. apply orb_true_iff in Hfit as [Hfit|Hfit]; apply Nat.eqb_eq in Hfit; congruence.
      * right. apply orb_false_iff. split; apply Nat.eqb_neq; assumption.
    + rewrite He. eauto.
  - destruct (iadd_channel_fails (<[l := flow]> h) l 0
                (fun a => (dimW img =? dimW a) || (dimW img =? 1))%nat
                (fun _ x => if (dimW img =? 1)%nat then 0 else INR x) flow) as [e He].
    + apply lookup_insert_eq.
    + destruct (Nat.leb_spec (dimC flow) 0) as [Hle|Hgt]; [left; exact Hle|].
      right. destruct ((dimW img =? dimW flow) || (dimW img =? 1))%nat eqn:Hfit; [|reflexivity].
      exfalso. apply Hno. split; [exact Hgt|reflexivity].
    + rewrite He. eauto.
Qed.

End Runs.

End GmaTestRuns.

(** ** [parse_range_str], [split_string], [find_first_match] *)

Module EvalUtilsProofs.
Import EvalUtils.
Local Open Scope Z_scope.

Lemma split_on_nonempty sep (s : str) : split_on sep s <> [].
Proof.
  induction s as [|c s IH]; simpl; [discriminate|].
  destruct (Ascii.eqb c sep); [discriminate|].
  destruct (split_on sep s); discriminate.
Qed.

Lemma split_on_app sep (s1 s2 : str) :
  split_on sep (s1 ++ sep :: s2) = split_on sep s1 ++ split_on sep s2.
Proof.
  induction s1 as [|c s1 IH]; simpl.
  - rewrite Ascii.eqb_refl. reflexivity.
  - destruct (Ascii.eqb c sep); [rewrite IH; reflexivity|].
    rewrite IH. pose proof (split_on_nonempty sep s1) as Hne.
    destruct (split_on sep s1) as [|piece pieces]; [congruence|reflexivity].
Qed.

Lemma split_on_absent sep (s : str) : has_char sep s = false -> split_on sep s = [s].
Proof.
  induction s as [|c s IH]; simpl; [reflexivity|].
  intros Hno. apply orb_false_iff in Hno as [Hc Hs].
  rewrite Ascii.eqb_sym, Hc, (IH Hs). reflexivity.
Qed.

Lemma has_char_app c (s1 s2 : str) : has_char c (s1 ++ s2) = has_char c s1 || has_char c s2.
Proof. unfold has_char. apply existsb_app. Qed.

Lemma int_raises (s : str) e : int s = Raise e -> e = ValueError.
Proof.
  unfold int.
  destruct (match int_rstrip (int_lstrip s) with [] => _ | _ => _ end); [discriminate|].
  intros [= <-]. reflexivity.
Qed.

Lemma parse_parts_cons offset part parts res :
  parse_parts offset (part :: parts) res =
  match part_values offset part with
  | Ok l => parse_parts offset parts (res ++ l)
  | Raise e => Raise e
  end.
Proof.
  unfold part_values. simpl.
  destruct (has_char "-"%char part).
  - destruct (split_on "-"%char part) as [|a [|b [|c rest]]]; try reflexivity.
    destruct (int a) as [za|]; simpl; [|reflexivity].
    destruct (int b) as [zb|]; simpl; [|reflexivity].
    destruct (list_range (za - offset) (zb - offset + 1)); simpl; reflexivity.
  - destruct (int part) as [za|]; simpl; reflexivity.
Qed.

(** A part without a dash fails with [ValueError] only. *)
Lemma part_values_raises offset part e :
  has_char "-"%char part = false -> part_values offset part = Raise e -> e = ValueError.
Proof.
  unfold part_values. simpl. intros ->.
  destruct (int part) as [za|ea] eqn:Ha; simpl; [discriminate|].
  intros [= <-]. exact (int_raises _ _ Ha).
Qed.

Lemma part_values_empty offset : part_values offset [] = Raise ValueError.
Proof. reflexivity. Qed.

(** The list built so far is a prefix of the result. *)
Lemma parse_parts_acc offset parts : forall res,
  parse_parts offset parts res =
  match parse_parts offset parts [] with
  | Ok l => Ok (res ++ l)
  | Raise e => Raise e
  end.
Proof.
  induction parts as [|part parts IH]; intros res.
  - simpl. rewrite app_nil_r. reflexivity.
  - rewrite !parse_parts_cons. destruct (part_values offset part) as [l|e]; [|reflexivity].
    rewrite (IH (res ++ l)), (IH ([] ++ l)).
    destruct (parse_parts offset parts []); [|reflexivity].
    simpl. rewrite app_assoc. reflexivity.
Qed.

Lemma parse_parts_app offset parts1 parts2 :
  parse_parts offset (parts1 ++ parts2) [] =
  match parse_parts offset parts1 [] with
  | Ok l1 =>
      match parse_parts offset parts2 [] with
      | Ok l2 => Ok (l1 ++ l2)
      | Raise e => Raise e
      end
  | Raise e => Raise e
  end.
Proof.
  induction parts1 as [|part parts1 IH].
  - simpl. destruct (parse_parts offset parts2 []); reflexivity.
  - rewrite <- app_comm_cons, !parse_parts_cons.
    destruct (part_values offset part) as [l|e]; [|reflexivity].
    rewrite (parse_parts_acc offset (parts1 ++ parts2)), (parse_parts_acc offset parts1), IH.
    destruct (parse_parts offset parts1 []) as [l1|]; [|reflexivity].
    destruct (parse_parts offset parts2 []) as [l2|]; [|reflexivity].
    rewrite app_assoc. reflexivity.
Qed.

(** X14: the parts between commas are read one after the other and their
    numbers put one after the other: reading [s1,s2] is reading [s1], then
    [s2], and the first failure is the failure of the whole. *)
Theorem parse_range_str_comma (s1 s2 : str) (fix_1_offset : bool) :
  parse_range_str (s1 ++ ","%char :: s2) fix_1_offset =
  match parse_range_str s1 fix_1_offset with
  | Ok l1 =>
      match parse_range_str s2 fix_1_offset with
      | Ok l2 => Ok (l1 ++ l2)
      | Raise e => Raise e
      end
  | Raise e => Raise e
  end.
Proof.
  unfold parse_range_str. rewrite split_on_app. apply parse_parts_app.
Qed.

Lemma range_pred a b : range (a - 1) (b - 1 + 1) = Z.pred <$> range (a - 0) (b - 0 + 1).
Proof.
  unfold range.
  replace (b - 1 + 1 - (a - 1)) with (b - 0 + 1 - (a - 0)) by lia.
  replace (a - 1) with (-1 + (a - 0)) by lia.
  rewrite <- fmap_add_seqZ. apply list_fmap_ext. intros i x _. lia.
Qed.

Lemma list_range_pred a b :
  list_range (a - 1) (b - 1 + 1) =
  match list_range (a - 0) (b - 0 + 1) with
  | Ok l => Ok (Z.pred <$> l)
  | Raise e => Raise e
  end.
Proof.
  unfold list_range.
  replace (b - 1 + 1 - (a - 1)) with (b - 0 + 1 - (a - 0)) by lia.
  destruct (maxsize <? b - 0 + 1 - (a - 0)); [reflexivity|].
  rewrite range_pred. reflexivity.
Qed.

Lemma part_values_offset part :
  part_values 1 part =
  match part_values 0 part with
  | Ok l => Ok (Z.pred <$> l)
  | Raise e => Raise e
  end.
Proof.
  unfold part_values. simpl.
  destruct (has_char "-"%char part).
  - destruct (split_on "-"%char part) as [|a [|b [|c rest]]]; try reflexivity.
    destruct (int a) as [za|]; simpl; [|reflexivity].
    destruct (int b) as [zb|]; simpl; [|reflexivity].
    rewrite list_range_pred.
    destruct (list_range (za - 0) (zb - 0 + 1)); reflexivity.
  - destruct (int part) as [za|]; simpl; [|reflexivity].
    f_equal. simpl. f_equal. lia.
Qed.

(** X15: [fix_1_offset] shifts every number down by one and changes
    nothing else: the same strings are accepted, the same are rejected. *)
Theorem parse_range_str_offset (range_str : str) :
  parse_range_str range_str true =
  match parse_range_str range_str false with
  | Ok l => Ok (Z.pred <$> l)
  | Raise e => Raise e
  end.
Proof.
  unfold parse_range_str.
  induction (split_on ","%char range_str) as [|part parts IH]; [reflexivity|].
  rewrite !parse_parts_cons, part_values_offset.
  destruct (part_values 0 part) as [l|e]; [|reflexivity].
  rewrite (parse_parts_acc 1 parts), (parse_parts_acc 0 parts), IH.
  destruct (parse_parts 0 parts []) as [l'|]; [|reflexivity].
  simpl. rewrite fmap_app. reflexivity.
Qed.


(** A range of more than [sys.maxsize] numbers is an [OverflowError]. *)
Lemma parse_range_str_too_long (sa sb : str) (a b : Z) (fix_1_offset : bool) :
  int sa = Ok a -> int sb = Ok b ->
  maxsize <= b - a ->
  has_char "-"%char sa = false -> has_char "-"%char sb = false ->
  has_char ","%char sa = false -> has_char ","%char sb = false ->
  parse_range_str (sa ++ "-"%char :: sb) fix_1_offset = Raise OverflowError.
Proof.
  intros Ha Hb Hover Hda Hdb Hca Hcb.
  unfold parse_range_str.
  rewrite split_on_absent
    by (rewrite has_char_app; simpl; rewrite Hca, Hcb; reflexivity).
  simpl. rewrite has_char_app. simpl. rewrite orb_true_r.
  rewrite split_on_app, !split_on_absent by assumption. simpl.
  rewrite Ha, Hb. simpl. unfold list_range.
  destruct (Z.ltb_spec maxsize
              (b - (if fix_1_offset then 1 else 0) + 1 - (a - (if fix_1_offset then 1 else 0))))
    as [_|Hfits]; [reflexivity|lia].
Qed.

(** A character of a piece is a character of the string. *)
Lemma split_on_has_char sep c (s : str) : forall piece,
  piece ∈ split_on sep s -> has_char c piece = true -> has_char c s = true.
Proof.
  induction s as [|x s IH]; intros piece; simpl.
  - intros Hin%list_elem_of_singleton. subst piece. discriminate.
  - destruct (Ascii.eqb x sep).
    + intros [->|Hin]%elem_of_cons; [discriminate|].
      intros Hc. rewrite (IH _ Hin Hc). apply orb_true_r.
    + pose proof (split_on_nonempty sep s) as Hne.
      destruct (split_on sep s) as [|first pieces]; [congruence|].
      intros [->|Hin]%elem_of_cons; simpl.
      * intros [Hx|Hc]%orb_true_iff; [rewrite Hx; reflexivity|].
        rewrite (IH first) by (try apply list_elem_of_here; assumption).
        apply orb_true_r.
      * intros Hc. rewrite (IH piece) by (try apply list_elem_of_further; assumption).
        apply orb_true_r.
Qed.

Lemma parse_parts_empty_part offset parts :
  [] ∈ parts -> exists e, parse_parts offset parts [] = Raise e.
Proof.
  induction parts as [|part parts IH]; intros Hin; [inversion Hin|].
  rewrite parse_parts_cons.
  destruct (part_values offset part) as [l|e] eqn:Hpart; [|eauto].
  rewrite parse_parts_acc.
  apply elem_of_cons in Hin as [<-|Hin]; [discriminate Hpart|].
  destruct (IH Hin) as [e ->]. eauto.
Qed.

Lemma parse_parts_empty_part_plain offset parts :
  [] ∈ parts -> Forall (fun part => has_char "-"%char part = false) parts ->
  parse_parts offset parts [] = Raise ValueError.
Proof.
  induction parts as [|part parts IH]; intros Hin Hplain; [inversion Hin|].
  apply Forall_cons in Hplain as [Hpart Hplain].
  rewrite parse_parts_cons.
  destruct (part_values offset part) as [l|e] eqn:Hrun.
  - rewrite parse_parts_acc.
    apply elem_of_cons in Hin as [<-|Hin]; [discriminate Hrun|].
    rewrite (IH Hin Hplain). reflexivity.
  - f_equal. exact (part_values_raises _ _ _ Hpart Hrun).
Qed.

(** X17: an empty part is an error: the empty string, a comma at the start
    or at the end and two commas in a row all end in an exception. In a
    string without a dash the exception is [ValueError]; with dashes it is
    the exception of the first part that fails, which for a range of more
    than [sys.maxsize] numbers before the empty part is [OverflowError]. *)
Theorem parse_range_str_empty_part (range_str : str) (fix_1_offset : bool) :
  [] ∈ split_on ","%char range_str ->
  (exists e, parse_range_str range_str fix_1_offset = Raise e) /\
  (has_char "-"%char range_str = false ->
   parse_range_str range_str fix_1_offset = Raise ValueError).
Proof.
  intros Hin. split.
  - apply parse_parts_empty_part. exact Hin.
  - intros Hplain. apply parse_parts_empty_part_plain; [exact Hin|].
    apply Forall_forall. intros part Hpart.
    destruct (has_char "-"%char part) eqn:Hc; [|reflexivity].
    rewrite (split_on_has_char _ _ _ _ Hpart Hc) in Hplain. discriminate.
Qed.

(** The example of the comment above the function. *)
Example parse_range_str_documented :
  let s := String.list_ascii_of_string "3-7,8,10" in
  parse_range_str s true = Ok [2; 3; 4; 5; 6; 7; 9] /\
  parse_range_str s false = Ok [3; 4; 5; 6; 7; 8; 10].
Proof. split; reflexivity. Qed.

(** [int()] does not skip the separator characters 28 to 31, which
    [str.strip()] removes. *)
Example parse_range_str_separator_char :
  let s := "028"%char :: String.list_ascii_of_string "3-7" in
  strip s = String.list_ascii_of_string "3-7" /\
  parse_range_str s true = Raise ValueError.
Proof. split; reflexivity. Qed.

(** A range of more than [sys.maxsize] numbers fails before the empty part
    after it is read. *)
Example parse_range_str_overflow_first :
  parse_range_str (String.list_ascii_of_string "0-99999999999999999999,") true =
  Raise OverflowError.
Proof. reflexivity. Qed.

(** *** [split_string] *)

Lemma in_word_run (w : str) : forall token rest,
  Forall (fun c => is_space c = false) w ->
  findall_tokens (InWord token) (w ++ rest) = findall_tokens (InWord (token ++ w)) rest.
Proof.
  induction w as [|c w IH]; intros token rest Hw; simpl.
  - rewrite app_nil_r. reflexivity.
  - apply Forall_cons in Hw as [Hc Hw]. rewrite Hc, (IH _ _ Hw), <- app_assoc. reflexivity.
Qed.

Lemma in_quotes_run (w : str) : forall token rest,
  Forall (fun c => c <> quote) w ->
  findall_tokens (InQuotes token) (w ++ quote :: rest) =
  (token ++ w ++ [quote]) :: findall_tokens Between rest.
Proof.
  induction w as [|c w IH]; intros token rest Hw; simpl.
  - reflexivity.
  - apply Forall_cons in Hw as [Hc Hw].
    destruct (Ascii.eqb_spec c quote) as [->|_]; [congruence|].
    rewrite (IH _ _ Hw), <- app_assoc. reflexivity.
Qed.

(** One item and what follows it: the end of the string or a space. *)
Lemma findall_item (i : item) (tail : str) :
  well_written i ->
  tail = [] \/ (exists rest, tail = " "%char :: rest) ->
  findall_tokens Between (written i ++ tail) = written i :: findall_tokens Between tail.
Proof.
  intros Hi Htail. destruct i as [word|words]; simpl in *.
  - destruct Hi as [Hne Hword]. destruct word as [|c word]; [congruence|].
    apply Forall_cons in Hword as [[Hc Hq] Hword]. simpl.
    destruct (Ascii.eqb_spec c quote) as [->|_]; [congruence|].
    rewrite Hc. rewrite in_word_run by (eapply Forall_impl; [exact Hword|]; simpl; tauto).
    destruct Htail as [->|[rest ->]]; reflexivity.
  - assert (Hhas : has_char quote (words ++ quote :: tail) = true).
    { rewrite has_char_app. simpl. apply orb_true_r. }
    rewrite <- app_assoc. simpl. rewrite Hhas.
    rewrite in_quotes_run by exact Hi. reflexivity.
Qed.

Lemma findall_join (items : list item) :
  Forall well_written items ->
  findall_tokens Between (join_spaces (written <$> items)) = written <$> items.
Proof.
  induction items as [|i items IH]; intros Hall; [reflexivity|].
  apply Forall_cons in Hall as [Hi Hall].
  destruct items as [|j items].
  - simpl. rewrite <- (app_nil_r (written i)) at 1.
    rewrite findall_item by auto. reflexivity.
  - change (join_spaces (written <$> i :: j :: items))
      with (written i ++ " "%char :: join_spaces (written <$> j :: items)).
    rewrite findall_item by eauto.
    rewrite (fmap_cons written i (j :: items)). f_equal.
    exact (IH Hall).
Qed.

Lemma rstrip_quotes_free (w : str) :
  Forall (fun c => c <> quote) w -> rstrip_quotes w = w.
Proof.
  induction 1 as [|c w Hc _ IH]; simpl; [reflexivity|].
  rewrite IH. destruct w; [|reflexivity].
  destruct (Ascii.eqb_spec c quote); [congruence|reflexivity].
Qed.

Lemma rstrip_quotes_last (w : str) :
  Forall (fun c => c <> quote) w -> rstrip_quotes (w ++ [quote]) = w.
Proof.
  induction 1 as [|c w Hc Hw IH]; simpl; [reflexivity|].
  rewrite IH. destruct w; [|reflexivity].
  destruct (Ascii.eqb_spec c quote); [congruence|reflexivity].
Qed.

Lemma lstrip_quotes_free (w : str) :
  Forall (fun c => c <> quote) w -> lstrip_quotes w = w.
Proof.
  destruct 1 as [|c w Hc _]; simpl; [reflexivity|].
  destruct (Ascii.eqb_spec c quote); [congruence|reflexivity].
Qed.

Lemma strip_quotes_written (i : item) : well_written i -> strip_quotes (written i) = meant i.
Proof.
  destruct i as [word|words]; simpl; intros Hi.
  - destruct Hi as [_ Hword].
    assert (Hfree : Forall (fun c => c <> quote) word)
      by (eapply Forall_impl; [exact Hword|]; simpl; tauto).
    unfold strip_quotes. rewrite lstrip_quotes_free, rstrip_quotes_free by exact Hfree.
    reflexivity.
  - unfold strip_quotes. simpl. destruct words as [|c words]; [reflexivity|].
    pose proof Hi as Hi'. apply Forall_cons in Hi' as [Hc _].
    change (lstrip_quotes ((c :: words) ++ [quote]))
      with (if Ascii.eqb c quote then lstrip_quotes (words ++ [quote])
            else (c :: words) ++ [quote]).
    destruct (Ascii.eqb_spec c quote); [congruence|].
    apply rstrip_quotes_last. exact Hi.
Qed.

(** X18: a line written as items with one space between them, each a bare
    word (not empty, without whitespace and double quotes) or a phrase
    between double quotes (without double quotes inside; spaces are fine,
    so is the empty phrase), is split into exactly these items, the
    phrases without their quotes. *)
Theorem split_string_items (items : list item) :
  Forall well_written items ->
  split_string (join_spaces (written <$> items)) = meant <$> items.
Proof.
  intros Hall. unfold split_string. rewrite findall_join by exact Hall.
  rewrite <- list_fmap_compose. apply Forall_fmap_ext_1.
  eapply Forall_impl; [exact Hall|]. intros i Hi. simpl. apply strip_quotes_written. exact Hi.
Qed.

(** *** [find_first_match] *)

(** X19: the result is the first item of the list that contains the
    search term and matches the pattern: every item before it fails one of
    the two tests; [None] is returned exactly when no item passes both. *)
Theorem find_first_match_first re_search (lst : list str) (search_term extra_sig : str) :
  let passes item := contains search_term item && re_search extra_sig item in
  match find_first_match re_search lst search_term extra_sig with
  | Some item =>
      exists before after,
        lst = before ++ item :: after /\ passes item = true /\
        Forall (fun other => passes other = false) before
  | None => Forall (fun other => passes other = false) lst
  end.
Proof.
  intros passes. induction lst as [|item lst IH]; simpl; [constructor|].
  fold (passes item). destruct (passes item) eqn:Hitem.
  - exists [], lst. split; [reflexivity|]. split; [exact Hitem|constructor].
  - destruct (find_first_match re_search lst search_term extra_sig) as [found|].
    + destruct IH as (before & after & -> & Hfound & Hbefore).
      exists (item :: before), after. split; [reflexivity|]. split; [exact Hfound|].
      constructor; assumption.
    + constructor; assumption.
Qed.

(** *** [parse_subject_file] *)

Lemma subject_line_not_set method vars line :
  is_set_line line = false -> subject_line method vars line = Returns vars.
Proof.
  unfold is_set_line, subject_line. destruct (match_set line) as [[name after]|]; [discriminate|].
  reflexivity.
Qed.

Lemma subject_lines_filter method : forall lines vars,
  subject_lines method vars lines = subject_lines method vars (List.filter is_set_line lines).
Proof.
  induction lines as [|line lines IH]; intros vars; [reflexivity|].
  simpl. destruct (is_set_line line) eqn:Hset.
  - simpl. destruct (subject_line method vars line); [apply IH|reflexivity|reflexivity].
  - rewrite (subject_line_not_set _ _ _ Hset). apply IH.
Qed.

Lemma filter_fmap_strip (lines : list str) :
  List.filter is_set_line (strip <$> lines) =
  strip <$> List.filter (fun line => is_set_line (strip line)) lines.
Proof.
  induction lines as [|line lines IH]; [reflexivity|].
  rewrite fmap_cons. cbn [List.filter].
  destruct (is_set_line (strip line)); [rewrite fmap_cons|]; rewrite IH; reflexivity.
Qed.

(** X20: only the lines that, once stripped, start with [set -l ] or
    [set -a ], a name and a space count: taking all other lines (comments,
    blank lines, other commands) out of the file changes nothing. *)
Theorem parse_subject_file_other_lines (lines : list str) (method : str) :
  parse_subject_file lines method =
  parse_subject_file (List.filter (fun line => is_set_line (strip line)) lines) method.
Proof.
  unfold parse_subject_file. cbv zeta.
  rewrite (subject_lines_filter method (strip <$> lines)), filter_fmap_strip. reflexivity.
Qed.

(** What one line leaves as it is. *)
Lemma subject_line_keeps method vars line vars' :
  subject_line method vars line = Returns vars' ->
  (names "subjects" line = false -> subjects vars' = subjects vars) /\
  (names "broad_classes" line = false -> broad_classes vars' = broad_classes vars) /\
  (names "sel_set" line = false -> sel_set vars' = sel_set vars).
Proof.
  unfold subject_line, names.
  destruct (match_set line) as [[name after]|]; [|intros [= <-]; auto].
  destruct (match_value after) as [value|]; [|discriminate].
  destruct (bool_decide (name = String.list_ascii_of_string "subjects")) eqn:H1;
    [intros [= <-]; simpl; repeat split; (discriminate || reflexivity)|].
  destruct (bool_decide (name = String.list_ascii_of_string "db_prompts") && _);
    [intros [= <-]; simpl; auto|].
  destruct (bool_decide (name = String.list_ascii_of_string "cls_tokens") && _);
    [intros [= <-]; simpl; auto|].
  destruct (bool_decide (name = String.list_ascii_of_string "broad_classes")) eqn:H4.
  { destruct (ints _ 0); [|discriminate]. intros [= <-]. simpl.
    apply bool_decide_eq_true in H4. subst name.
    repeat split; (discriminate || reflexivity). }
  destruct (bool_decide (name = String.list_ascii_of_string "sel_set")) eqn:H5.
  { destruct (ints _ 1); [|discriminate]. intros [= <-]. simpl.
    repeat split; (discriminate || reflexivity). }
  intros [= <-]. auto.
Qed.

Lemma subject_lines_keep method : forall lines vars vars',
  subject_lines method vars lines = Returns vars' ->
  (Forall (fun line => names "subjects" line = false) lines ->
     subjects vars' = subjects vars) /\
  (Forall (fun line => names "broad_classes" line = false) lines ->
     broad_classes vars' = broad_classes vars) /\
  (Forall (fun line => names "sel_set" line = false) lines ->
     sel_set vars' = sel_set vars).
Proof.
  induction lines as [|line lines IH]; intros vars vars'; simpl.
  - intros [= <-]. auto.
  - destruct (subject_line method vars line) as [vars1| |] eqn:Hline; try discriminate.
    intros Hrest. destruct (IH _ _ Hrest) as (Hs & Hb & Hsel).
    destruct (subject_line_keeps _ _ _ _ Hline) as (Hs1 & Hb1 & Hsel1).
    repeat split; intros Hall; apply Forall_cons in Hall as [Hhere Hall].
    + rewrite (Hs Hall). exact (Hs1 Hhere).
    + rewrite (Hb Hall). exact (Hb1 Hhere).
    + rewrite (Hsel Hall). exact (Hsel1 Hhere).
Qed.

(** X21: the call returns only for a file with a line that sets
    [subjects]. In what it returns, a file without a [broad_classes] line
    gets the class 1 for every subject, and a file without a [sel_set]
    line gets all the indices of the subjects, from 0. *)
Theorem parse_subject_file_defaults (lines : list str) (method : str) subj tokens broad sel :
  parse_subject_file lines method = Returns (subj, tokens, broad, sel) ->
  Exists (fun line => names "subjects" (strip line) = true) lines /\
  (Forall (fun line => names "broad_classes" (strip line) = false) lines ->
     broad = replicate (length subj) 1%Z) /\
  (Forall (fun line => names "sel_set" (strip line) = false) lines ->
     sel = seqZ 0 (Z.of_nat (length subj))).
Proof.
  unfold parse_subject_file.
  destruct (subject_lines method _ (strip <$> lines)) as [vars| |] eqn:Hlines; try discriminate.
  destruct (subject_lines_keep _ _ _ _ Hlines) as (Hs & Hb & Hsel). simpl in *.
  unfold subject_result.
  destruct (subjects vars) as [subj'|] eqn:Hsubj.
  - intros Hres. split; [|split].
    + assert (Hdec : forall line : str,
                {names "subjects" (strip line) = false} + {names "subjects" (strip line) = true})
        by (intros line; destruct (names "subjects" (strip line)); [right|left]; reflexivity).
      destruct (Forall_Exists_dec _ _ Hdec lines) as [Hall|Hex]; [|exact Hex].
      enough (Some subj' = None) by discriminate. apply Hs.
      apply Forall_fmap. exact Hall.
    + intros Hall. rewrite Hb in Hres by (apply Forall_fmap; exact Hall).
      destruct (sel_set vars); destruct (class_tokens vars); try discriminate;
        injection Hres as <- _ <- _; clear; induction subj' as [|x l IH];
        simpl; [reflexivity|f_equal; exact IH| reflexivity | f_equal; exact IH].
    + intros Hall. rewrite Hsel in Hres by (apply Forall_fmap; exact Hall).
      destruct (broad_classes vars); destruct (class_tokens vars); try discriminate;
        injection Hres as <- _ _ <-; unfold range; f_equal; lia.
  - destruct (broad_classes vars); [|discriminate].
    destruct (sel_set vars); discriminate.
Qed.

Lemma span_name (name rest : str) :
  Forall (fun c => is_name_char c = true) name ->
  span is_name_char (name ++ " "%char :: rest) = (name, " "%char :: rest).
Proof.
  induction 1 as [|c name Hc _ IH]; simpl; [reflexivity|].
  rewrite Hc, IH. reflexivity.
Qed.

Lemma subject_lines_not_set method vars (lines : list str) :
  Forall (fun line => is_set_line line = false) lines ->
  subject_lines method vars lines = Returns vars.
Proof.
  induction 1 as [|line lines Hline _ IH]; simpl; [reflexivity|].
  rewrite (subject_line_not_set _ _ _ Hline). exact IH.
Qed.

Lemma subject_lines_app method : forall (lines1 lines2 : list str) vars,
  subject_lines method vars (lines1 ++ lines2) =
  match subject_lines method vars lines1 with
  | Returns vars' => subject_lines method vars' lines2
  | Raises e => Raises e
  | AtBreakpoint => AtBreakpoint
  end.
Proof.
  induction lines1 as [|line lines1 IH]; intros lines2 vars; simpl; [reflexivity|].
  destruct (subject_line method vars line); [apply IH|reflexivity|reflexivity].
Qed.

(** X22: a value of one or two characters stops the run. The pattern of
    line 62 asks for three characters at least after the name, so the
    first [set] line of a file that carries a shorter value, as in
    [set -l sel_set 1], does not set its variable: the run ends at the
    [breakpoint()] of line 77, whatever the variable and the method. *)
Theorem parse_subject_file_short_value
    (before after : list str) (raw : str) (method : str) flag (name value : str) :
  Forall (fun line => is_set_line (strip line) = false) before ->
  strip raw = String.list_ascii_of_string "set -" ++ flag :: " "%char :: name ++ " "%char :: value ->
  flag = "l"%char \/ flag = "a"%char ->
  name <> [] -> Forall (fun c => is_name_char c = true) name ->
  Forall (fun c => is_space c = false) value ->
  (1 <= length value <= 2)%nat ->
  parse_subject_file (before ++ raw :: after) method = AtBreakpoint.
Proof.
  intros Hbefore Hraw Hflag Hne Hname Hvalue Hlen.
  unfold parse_subject_file. cbv zeta.
  rewrite fmap_app, fmap_cons, subject_lines_app.
  rewrite subject_lines_not_set by (apply Forall_fmap; exact Hbefore).
  cbn [subject_lines].
  enough (Hline : forall vars, subject_line method vars (strip raw) = AtBreakpoint)
    by (rewrite Hline; reflexivity).
  intros vars. rewrite Hraw. unfold subject_line.
  assert (Hset : match_set (String.list_ascii_of_string "set -" ++ flag :: " "%char ::
                              name ++ " "%char :: value) = Some (name, " "%char :: value)).
  { cbn [String.list_ascii_of_string app match_set].
    replace (Ascii.eqb flag "l"%char || Ascii.eqb flag "a"%char) with true
      by (destruct Hflag as [-> | ->]; reflexivity).
    rewrite span_name by exact Hname.
    destruct name; [congruence|reflexivity]. }
  rewrite Hset.
  assert (Hvalue' : match_value (" "%char :: value) = None).
  { unfold match_value. cbn [lstrip]. change (is_space " "%char) with true. cbv iota.
    destruct value as [|c [|d [|x value]]]; simpl in Hlen; try lia.
    - apply Forall_cons in Hvalue as [Hc _]. simpl. rewrite Hc. simpl. rewrite Hc. reflexivity.
    - apply Forall_cons in Hvalue as [Hc Hvalue]. apply Forall_cons in Hvalue as [Hd _].
      simpl. rewrite Hc.
      assert (Hnl : Ascii.eqb d "010"%char = false).
      { destruct (Ascii.eqb_spec d "010"%char) as [->|]; [discriminate Hd|reflexivity]. }
      assert (Hsp : (span (fun c0 => negb (Ascii.eqb c0 "010"%char)) [d]).1 = [d])
        by (cbn [span]; rewrite Hnl; reflexivity).
      rewrite Hsp. cbn [rstrip]. rewrite Hd. reflexivity. }
  rewrite Hvalue'. reflexivity.
Qed.

End EvalUtilsProofs.

(** ** The properties above on small inputs *)

Module Runs.
Import Torch ArcFaceWrapper Trace LoadImage StandIn GmaTest EvalUtils.
Import Checkpoint CheckpointInvariants LoadImageProofs ArcFaceRuns GmaTestRuns EvalUtilsProofs.
Local Open Scope R_scope.

Lemma rename_keys_never_fails_witness :
  exists d', rename_keys [("module.w"%string, 1%nat); ("w"%string, 2%nat)] = Ok d' /\
    (length d' <= 2)%nat.
Proof.
  destruct (rename_keys_never_fails [("module.w"%string, 1%nat); ("w"%string, 2%nat)])
    as (d' & Hd & _ & Hlen & _).
  - apply (bool_decide_unpack _). vm_compute. exact I.
  - exists d'. split; [exact Hd|exact Hlen].
Defined.

Lemma rename_keys_unchanged_witness :
  rename_keys [("conv1.weight"%string, 1%nat); ("fc.bias"%string, 2%nat)] =
    Ok [("conv1.weight"%string, 1%nat); ("fc.bias"%string, 2%nat)].
Proof.
  apply rename_keys_unchanged.
  - apply (bool_decide_unpack _). vm_compute. exact I.
  - intros k Hk.
    change (keys [("conv1.weight"%string, 1%nat); ("fc.bias"%string, 2%nat)])
      with ["conv1.weight"%string; "fc.bias"%string] in Hk.
    rewrite !elem_of_cons, elem_of_nil in Hk.
    destruct Hk as [->|[->|[]]]; reflexivity.
Defined.

Lemma load_image_for_arcface_pixel_witness :
  exists im,
    load_image_for_arcface one_picture "face.png" = Some [im] /\
    pixel (red im) 0 0 = Some ((IZR 255 - 127.5) / 127.5) /\
    pixel (green im) 0 0 = Some ((IZR 0 - 127.5) / 127.5) /\
    pixel (blue im) 0 0 = Some ((IZR 0 - 127.5) / 127.5).
Proof.
  exact (load_image_for_arcface_pixel one_picture "face.png"
           [[(0, 0, 255)%Z; (255, 255, 255)%Z]] 0 0
           [(0, 0, 255)%Z; (255, 255, 255)%Z] 0 0 255 eq_refl eq_refl eq_refl).
Defined.

Lemma load_image_for_arcface_range_witness :
  exists im,
    load_image_for_arcface one_picture "face.png" = Some [im] /\
    forall c y x v, c ∈ [red im; green im; blue im] -> pixel c y x = Some v -> -1 <= v <= 1.
Proof.
  refine (load_image_for_arcface_range one_picture "face.png" _).
  intros row b g r Hrow Hpix.
  apply list_elem_of_singleton in Hrow. subst row.
  rewrite !elem_of_cons, elem_of_nil in Hpix.
  destruct Hpix as [[= -> -> ->]|[[= -> -> ->]|[]]]; lia.
Defined.

Lemma rgb_to_gray_range_witness :
  0 <= 1 * 0.299 + 0 * 0.587 + 0 * 0.114 <= 1.
Proof.
  refine (rgb_to_gray_range face_a 0 1 _ 0%nat 0%nat _ eq_refl).
  intros c y x v Hc Hv. unfold face_a in Hc. simpl in Hc.
  rewrite !elem_of_cons, elem_of_nil in Hc.
  destruct Hc as [->|[->|[->|[]]]];
    destruct y as [|y]; try discriminate Hv;
    destruct x as [|x]; try discriminate Hv;
    injection Hv as <-; lra.
Defined.

Lemma calc_arcface_align_loss_boxes_witness :
  exists l b,
    outcome (calc_arcface_align_loss stand_in [face_a] [face_a; face_b] 20 2 true false)
      = Ok (l, b, Some [(0, 0, 128, 128)%Z; (0, 0, 128, 128)%Z]).
Proof.
  destruct (outcome (calc_arcface_align_loss stand_in [face_a] [face_a; face_b] 20 2 true false))
    as [[[l b] boxes]|e] eqn:Ho; [|discriminate Ho].
  destruct (calc_arcface_align_loss_boxes stand_in [face_a] [face_a; face_b] 20 2 true false
              l b boxes Ho) as [([Hf|Hf] & _)|(_ & _ & ->)].
  - exfalso. apply Hf. reflexivity.
  - exfalso. apply Hf. reflexivity.
  - exists l, b. reflexivity.
Defined.

Lemma calc_arcface_align_loss_bounds_witness :
  exists l b boxes,
    outcome (calc_arcface_align_loss stand_in [face_a] [face_with_bg] 20 2 true false)
      = Ok (l, b, boxes) /\ 0 <= l <= 2 /\ 0 <= b.
Proof.
  destruct (outcome (calc_arcface_align_loss stand_in [face_a] [face_with_bg] 20 2 true false))
    as [[[l b] boxes]|e] eqn:Ho; [|discriminate Ho].
  exists l, b, boxes. split; [reflexivity|].
  refine (calc_arcface_align_loss_bounds stand_in [face_a] [face_with_bg] 20 2 true false
            l b boxes Ho _ _).
  - discriminate.
  - intros bg [= <-]. discriminate.
Defined.

Lemma calc_arcface_align_loss_bg_suppress_witness :
  exists l boxes,
    outcome (calc_arcface_align_loss stand_in [face_with_bg] [face_with_bg] 20 2 true false)
      = Ok (l, mean_square (emb_of [face_with_bg]), boxes).
Proof.
  destruct (outcome (calc_arcface_align_loss stand_in [face_with_bg] [face_with_bg]
                       20 2 true false)) as [[[l b] boxes]|e] eqn:Ho; [|discriminate Ho].
  destruct (calc_arcface_align_loss_bg_suppress stand_in [face_with_bg] [face_with_bg]
              20 2 false l b boxes [face_with_bg] [face_with_bg] Ho
              eq_refl eq_refl eq_refl eq_refl) as [-> _].
  exists l, boxes. reflexivity.
Defined.

Lemma calc_arcface_align_loss_none_without_failure_witness :
  outcome (calc_arcface_align_loss stand_in [] [] 20 2 true false) = Raise TypeError.
Proof.
  exact (calc_arcface_align_loss_none_without_failure stand_in [] [] 20 2 true false
           eq_refl eq_refl (or_introl eq_refl)).
Defined.

Lemma sample_heap_image : sample_heap !! 0%nat = Some sample_image.
Proof. vm_compute. reflexivity. Qed.

Lemma sample_heap_flow : sample_heap !! 1%nat = Some sample_flow.
Proof. vm_compute. reflexivity. Qed.

Lemma backward_warp_by_flow_coordinates_witness :
  exists adjusted,
    length (data adjusted) = 4%nat /\
    data adjusted !! 2%nat = Some (0 + INR 1) /\
    exists l, (backward_warp_by_flow remap_shows_map 0 1 sample_heap).2 !! l = Some adjusted.
Proof.
  destruct (backward_warp_by_flow_coordinates remap_shows_map 0 1 sample_heap
              sample_image sample_flow sample_heap_image sample_heap_flow
              eq_refl eq_refl (le_n 2)) as (adjusted & _ & Hlen & Hat & Hrun).
  exists adjusted. split; [exact Hlen|]. split.
  - refine (Hat 0%nat 1%nat 0%nat 0 _ _ _ eq_refl); simpl; lia.
  - simpl in Hrun. destruct Hrun as (l & _ & _ & Hl). exists l. exact Hl.
Defined.

Lemma backward_warp_by_flow_rejects_witness :
  exists e,
    (backward_warp_by_flow remap_shows_map 0 1
       (<[1%nat := NdArray 1 2 1 [0; 0]]> sample_heap)).1 = Raise e.
Proof.
  refine (backward_warp_by_flow_rejects remap_shows_map 0 1 _
            sample_image (NdArray 1 2 1 [0; 0]) _ _ (or_introl _)).
  - rewrite lookup_insert_ne by discriminate. exact sample_heap_image.
  - apply lookup_insert_eq.
  - simpl. lia.
Defined.


Lemma parse_range_str_empty_part_witness :
  parse_range_str (String.list_ascii_of_string "3,") true = Raise ValueError.
Proof.
  refine (proj2 (parse_range_str_empty_part (String.list_ascii_of_string "3,") true _) eq_refl).
  simpl. apply elem_of_cons. right. left.
Defined.

Lemma split_string_items_witness :
  split_string (String.list_ascii_of_string "alita " ++
                "034"%char :: String.list_ascii_of_string "young woman" ++ ["034"%char]) =
  [String.list_ascii_of_string "alita"; String.list_ascii_of_string "young woman"].
Proof.
  refine (split_string_items [Bare (String.list_ascii_of_string "alita");
                              Phrase (String.list_ascii_of_string "young woman")] _).
  repeat constructor; discriminate.
Defined.

Lemma parse_subject_file_defaults_witness :
  exists subj tokens broad sel,
    parse_subject_file [String.list_ascii_of_string "set -l subjects alita corgi";
                        String.list_ascii_of_string "# classes";
                        String.list_ascii_of_string "set -l cls_tokens girl dog"]
      (String.list_ascii_of_string "ada") = Returns (subj, tokens, broad, sel) /\
    broad = replicate (length subj) 1%Z /\ sel = seqZ 0 (Z.of_nat (length subj)).
Proof.
  pose proof (parse_subject_file_defaults
                [String.list_ascii_of_string "set -l subjects alita corgi";
                 String.list_ascii_of_string "# classes";
                 String.list_ascii_of_string "set -l cls_tokens girl dog"]
                (String.list_ascii_of_string "ada")
                [String.list_ascii_of_string "alita"; String.list_ascii_of_string "corgi"]
                [String.list_ascii_of_string "girl"; String.list_ascii_of_string "dog"]
                [1; 1]%Z [0; 1]%Z eq_refl) as (_ & Hbroad & Hsel).
  eexists _, _, _, _. split; [reflexivity|]. split.
  - apply Hbroad. repeat constructor.
  - apply Hsel. repeat constructor.
Defined.

Lemma parse_subject_file_short_value_witness :
  parse_subject_file [String.list_ascii_of_string "# selection";
                      String.list_ascii_of_string "set -l sel_set 1";
                      String.list_ascii_of_string "set -l subjects alita corgi"]
    (String.list_ascii_of_string "ada") = AtBreakpoint.
Proof.
  refine (parse_subject_file_short_value [String.list_ascii_of_string "# selection"]
            [String.list_ascii_of_string "set -l subjects alita corgi"]
            (String.list_ascii_of_string "set -l sel_set 1")
            (String.list_ascii_of_string "ada") "l"%char
            (String.list_ascii_of_string "sel_set") (String.list_ascii_of_string "1")
            _ eq_refl (or_introl eq_refl) _ _ _ _).
  - repeat constructor.
  - discriminate.
  - repeat constructor.
  - repeat constructor.
  - simpl. lia.
Defined.

End Runs.
